(** * Derived metrics of the fantasy-football dashboard

    A shallow embedding of [streamlit_visualizer.py]: the data access layer
    ([load_data]), the selection filter ([filtered_scoreboard]), the
    cumulative win percentage ([win_data]), the head-to-head win matrix
    ([win_matrix]) and the head-to-head average points ([avg_h2h]).

    Modelling conventions.
    - A pandas DataFrame of scoreboard rows is a [list ScoreRow], in row
      order.  A column is the list of that field over the rows.
    - [week] and [matchup_id] are integers, [manager_nickname] and the two
      keys are strings, [team_points] is a number.  Columns are assumed to
      hold no missing values.
    - A float64 value is the rational it denotes ([Qc]), so comparisons of
      points are those of the code.  The percentage of line 90 is written
      in exact arithmetic.  The mean of a column is computed by pandas with
      rounding that depends on its summation routine: it is a parameter
      ([group_mean] for [groupby(...).mean()], [series_mean] for
      [Series.mean()]) about which nothing is assumed.
    - A Python exception is [None] in the option monad.
    - The derived tables are pure functions of the rows they read.  The
      script itself builds them by in-place updates of DataFrame objects;
      that is modelled on a heap of objects, and the heap programs are
      proved to return the values of the pure functions. *)

From Stdlib Require Import ZArith QArith Qcanon String List Lia Permutation Sorted.
From Stdlib Require OrderedTypeEx.
From stdpp Require Import base option list numbers strings.

Local Open Scope Z_scope.

(** ** Data model *)

Record ScoreRow := mkRow {
  week : Z;
  manager_nickname : string;
  matchup_id : Z;
  team_points : Qc;
  winner_team_key : string;
  team_key : string
}.

#[global] Instance ScoreRow_eq_dec : EqDecision ScoreRow.
Proof. solve_decision. Defined.

Definition Table := list ScoreRow.

(** ** pandas primitives used by the script *)

(** [Series.isin(values)] *)
Definition isin (col : list string) (values : list string) : list bool :=
  map (fun x => existsb (String.eqb x) values) col.

(** [Series.between(left, right)], inclusive on both sides *)
Definition between (col : list Z) (left right : Z) : list bool :=
  map (fun w => (left <=? w) && (w <=? right)) col.

(** [mask1 & mask2] on boolean Series of one frame *)
Definition mask_and (m1 m2 : list bool) : list bool :=
  map (fun p => fst p && snd p) (combine m1 m2).

(** [df[mask]]: the rows whose mask entry is [True], in row order *)
Definition boolean_index {A} (df : list A) (mask : list bool) : list A :=
  map fst (List.filter snd (combine df mask)).

(** ** The selection filter (lines 52-55) *)

Definition filtered_scoreboard (scoreboard_df : Table)
    (selected_teams : list string) (week_range : Z * Z) : Table :=
  boolean_index scoreboard_df
    (mask_and (isin (map manager_nickname scoreboard_df) selected_teams)
              (between (map week scoreboard_df) (fst week_range) (snd week_range))).

(** The selection predicate of one row, as a boolean. *)
Definition selects (selected_teams : list string) (week_range : Z * Z)
    (r : ScoreRow) : bool :=
  existsb (String.eqb (manager_nickname r)) selected_teams
  && ((fst week_range <=? week r) && (week r <=? snd week_range)).

(** ** Cumulative win percentage (lines 84-94) *)

(** [DataFrame.sort_values('week')]: ascending.  pandas leaves the order of
    rows of equal week to its sorting algorithm; the model keeps their
    relative order, and the properties below use only that the result is an
    ascending rearrangement of the rows. *)
Fixpoint insert_by_week (r : ScoreRow) (l : Table) : Table :=
  match l with
  | [] => [r]
  | x :: l' => if week r <=? week x then r :: x :: l'
               else x :: insert_by_week r l'
  end.

Fixpoint sort_values_week (l : Table) : Table :=
  match l with
  | [] => []
  | r :: l' => insert_by_week r (sort_values_week l')
  end.

(** [filtered_scoreboard[filtered_scoreboard['manager_nickname'] == team]
      .sort_values('week')] *)
Definition team_data (filtered : Table) (team : string) : Table :=
  sort_values_week
    (boolean_index filtered
       (map (fun n => String.eqb n team) (map manager_nickname filtered))).

(** [(team_data['winner_team_key'] == team_data['team_key']).astype(int)] *)
Definition wins_col (td : Table) : list Z :=
  map (fun r => if String.eqb (winner_team_key r) (team_key r) then 1 else 0) td.

(** [Series.cumsum()] *)
Fixpoint cumsum_from (acc : Z) (l : list Z) : list Z :=
  match l with
  | [] => []
  | x :: l' => (acc + x) :: cumsum_from (acc + x) l'
  end.

Definition cumsum (l : list Z) : list Z := cumsum_from 0 l.

(** [range(1, len(team_data) + 1)] *)
Definition games_played_col (td : Table) : list Z :=
  map Z.of_nat (seq 1 (length td)).

(** [(cumulative_wins / games_played) * 100], element by element *)
Definition win_percentage_col (cumulative_wins games_played : list Z) : list Qc :=
  map (fun p => (Qc_of_Z (fst p) / Qc_of_Z (snd p) * Qc_of_Z 100)%Qc)
      (combine cumulative_wins games_played).

(** One row of [team_data[['week', 'manager_nickname', 'win_percentage']]]. *)
Record WinPctRow := mkWinPct {
  wp_week : Z;
  wp_manager_nickname : string;
  wp_win_percentage : Qc
}.

Definition team_win_frame (filtered : Table) (team : string) : list WinPctRow :=
  let td := team_data filtered team in
  let wins := wins_col td in
  let cumulative_wins := cumsum wins in
  let games_played := games_played_col td in
  let win_percentage := win_percentage_col cumulative_wins games_played in
  map (fun p => mkWinPct (week (fst p)) (manager_nickname (fst p)) (snd p))
      (combine td win_percentage).

(** The list [win_data] after the loop over [selected_teams]. *)
Definition win_data (filtered : Table) (selected_teams : list string)
    : list (list WinPctRow) :=
  map (team_win_frame filtered) selected_teams.

(** [pd.concat(win_data)], guarded by [if win_data:]. *)
Definition win_df (filtered : Table) (selected_teams : list string)
    : option (list WinPctRow) :=
  match win_data filtered selected_teams with
  | [] => None
  | frames => Some (concat frames)
  end.

(** ** Head-to-head win matrix (lines 194-214) *)

(** A DataFrame of integers with row labels [index] and column labels
    [columns]; [cells] holds one list per row. *)
Record WinFrame := mkWinFrame {
  index : list string;
  columns : list string;
  cells : list (list Z)
}.

#[global] Instance WinFrame_eq_dec : EqDecision WinFrame.
Proof. solve_decision. Defined.

(** [pd.DataFrame(index=idx, columns=cols, data=v)] *)
Definition new_frame (idx cols : list string) (v : Z) : WinFrame :=
  mkWinFrame idx cols (repeat (repeat v (length cols)) (length idx)).

(** [x in selected_teams] *)
Definition in_list (x : string) (l : list string) : bool :=
  existsb (String.eqb x) l.

(** [frame.loc[r, c] += d].  A label that is absent raises [KeyError]; the
    cells addressed by the two labels are incremented. *)
Definition loc_add (m : WinFrame) (r c : string) (d : Z) : option WinFrame :=
  if in_list r (index m) && in_list c (columns m) then
    Some (mkWinFrame (index m) (columns m)
            (map (fun p =>
                    if String.eqb (fst p) r then
                      map (fun q => if String.eqb (fst q) c then snd q + d else snd q)
                          (combine (columns m) (snd p))
                    else snd p)
                 (combine (index m) (cells m))))
  else None.

(** [matchups[(matchups['week'] == row['week']) &
              (matchups['matchup_id'] == row['matchup_id'])]] *)
Definition week_matchups (matchups : Table) (row : ScoreRow) : Table :=
  boolean_index matchups
    (mask_and (map (fun w => w =? week row) (map week matchups))
              (map (fun i => i =? matchup_id row) (map matchup_id matchups))).

(** [frame.iloc[i]]; out of range raises [IndexError]. *)
Definition iloc (t : Table) (i : nat) : option ScoreRow := nth_error t i.

(** [a > b] on points *)
Definition points_gt (a b : Qc) : bool :=
  match (a ?= b)%Qc with Gt => true | _ => false end.

(** Lines 208-209. *)
Definition winner_of (team1 team2 : ScoreRow) : string :=
  if points_gt (team_points team1) (team_points team2)
  then manager_nickname team1 else manager_nickname team2.

Definition loser_of (team1 team2 : ScoreRow) : string :=
  if String.eqb (winner_of team1 team2) (manager_nickname team1)
  then manager_nickname team2 else manager_nickname team1.

(** The body of the loop of lines 197-211 for one row. *)
Definition win_matrix_body (matchups : Table) (selected_teams : list string)
    (win_matrix : WinFrame) (row : ScoreRow) : option WinFrame :=
  let wm := week_matchups matchups row in
  if (length wm =? 2)%nat then
    team1 ← iloc wm 0;
    team2 ← iloc wm 1;
    if in_list (manager_nickname team1) selected_teams
       && in_list (manager_nickname team2) selected_teams
    then loc_add win_matrix (winner_of team1 team2) (loser_of team1 team2) 1
    else Some win_matrix
  else Some win_matrix.

(** [for _, row in rows: body], stopping at the first exception. *)
Fixpoint for_rows {S} (body : S → ScoreRow → option S) (rows : Table) (s : S)
    : option S :=
  match rows with
  | [] => Some s
  | row :: rest => s' ← body s row; for_rows body rest s'
  end.

(** Lines 194-214: [matchups] is the filtered scoreboard; [astype(int)] is
    the identity on integer cells. *)
Definition win_matrix (matchups : Table) (selected_teams : list string)
    : option WinFrame :=
  for_rows (win_matrix_body matchups selected_teams) matchups
           (new_frame selected_teams selected_teams 0).

(** Sum over all cells. *)
Definition sum_Z (l : list Z) : Z := fold_right Z.add 0 l.
Definition cells_sum (m : WinFrame) : Z := sum_Z (map sum_Z (cells m)).

(** The cell in row [i] and column [j], by position. *)
Definition cell (m : WinFrame) (i j : nat) : option Z :=
  row ← nth_error (cells m) i; nth_error row j.

(** The first cell labelled [(r, c)]: [frame.loc[r, c]] for unique labels. *)
Fixpoint position (x : string) (l : list string) : option nat :=
  match l with
  | [] => None
  | y :: l' => if String.eqb y x then Some O else S <$> position x l'
  end.

Definition loc (m : WinFrame) (r c : string) : option Z :=
  i ← position r (index m); j ← position c (columns m); cell m i j.

(** ** Head-to-head average points (lines 229-255) *)

Record H2HRecord := mkH2H {
  team : string;
  opponent : string;
  points : Qc
}.

(** The records appended by the loop body of lines 231-251 for one row. *)
Definition h2h_body (matchups : Table) (selected_teams : list string)
    (row : ScoreRow) : option (list H2HRecord) :=
  let wm := week_matchups matchups row in
  if (length wm =? 2)%nat then
    team1 ← iloc wm 0;
    team2 ← iloc wm 1;
    if in_list (manager_nickname team1) selected_teams
       && in_list (manager_nickname team2) selected_teams
    then Some [ mkH2H (manager_nickname team1) (manager_nickname team2) (team_points team1);
                mkH2H (manager_nickname team2) (manager_nickname team1) (team_points team2) ]
    else Some []
  else Some [].

Definition h2h_points (matchups : Table) (selected_teams : list string)
    : option (list H2HRecord) :=
  for_rows (fun acc row => new ← h2h_body matchups selected_teams row;
                           Some (acc ++ new))
           matchups [].

(** Group keys of [groupby(['team', 'opponent'])]: distinct, in ascending
    lexicographic order. *)
Definition key_compare (a b : string * string) : comparison :=
  match String.compare (fst a) (fst b) with
  | Eq => String.compare (snd a) (snd b)
  | c => c
  end.

Fixpoint insert_key (k : string * string) (l : list (string * string))
    : list (string * string) :=
  match l with
  | [] => [k]
  | x :: l' => match key_compare k x with
               | Lt => k :: x :: l'
               | Eq => x :: l'
               | Gt => x :: insert_key k l'
               end
  end.

Definition h2h_key (r : H2HRecord) : string * string := (team r, opponent r).

Definition group_keys (recs : list H2HRecord) : list (string * string) :=
  fold_right insert_key [] (map h2h_key recs).

Definition key_eqb (a b : string * string) : bool :=
  String.eqb (fst a) (fst b) && String.eqb (snd a) (snd b).

Definition group_points (recs : list H2HRecord) (k : string * string) : list Qc :=
  map points (List.filter (fun r => key_eqb (h2h_key r) k) recs).

(** [h2h_df.groupby(['team', 'opponent'])['points'].mean().reset_index()];
    [group_mean] is pandas' mean of the points of one group, in the order
    of the records. *)
Definition groupby_mean (group_mean : list Qc → Qc) (recs : list H2HRecord)
    : list H2HRecord :=
  map (fun k => mkH2H (fst k) (snd k) (group_mean (group_points recs k)))
      (group_keys recs).

(** [avg_h2h], defined only under [if h2h_points:]; the outer option is an
    exception, the inner one the guard. *)
Definition avg_h2h (group_mean : list Qc → Qc) (matchups : Table)
    (selected_teams : list string) : option (option (list H2HRecord)) :=
  recs ← h2h_points matchups selected_teams;
  Some (match recs with
        | [] => None
        | _ => Some (groupby_mean group_mean recs)
        end).


(** ** Head-to-head resolution in the words of the specification

    Rows are grouped by [(period, matchup_id)]; a group resolves when it has
    exactly two rows, both of selected entities; a resolved pair emits two
    directed records, which are grouped by [(team, opponent)] and averaged.
    These definitions are the reference the code is compared with. *)

Definition matchup_key (r : ScoreRow) : Z * Z := (week r, matchup_id r).

Definition spec_group (t : Table) (k : Z * Z) : Table :=
  List.filter (fun r => bool_decide (matchup_key r = k)) t.

Definition spec_groups (t : Table) : list Table :=
  map (spec_group t) (remove_dups (map matchup_key t)).

Definition spec_resolve (selected : list string) (g : Table)
    : option (ScoreRow * ScoreRow) :=
  match g with
  | [a; b] => if in_list (manager_nickname a) selected
                 && in_list (manager_nickname b) selected
              then Some (a, b) else None
  | _ => None
  end.

Definition spec_resolved_pairs (t : Table) (selected : list string)
    : list (ScoreRow * ScoreRow) :=
  omap (spec_resolve selected) (spec_groups t).

Definition spec_directed (p : ScoreRow * ScoreRow) : list H2HRecord :=
  [ mkH2H (manager_nickname (fst p)) (manager_nickname (snd p)) (team_points (fst p));
    mkH2H (manager_nickname (snd p)) (manager_nickname (fst p)) (team_points (snd p)) ].

Definition spec_directed_records (t : Table) (selected : list string)
    : list H2HRecord :=
  flat_map spec_directed (spec_resolved_pairs t selected).

(** The points a resolved pair holds for [team] against [opponent]: those
    of its first row when the pair is (team, opponent), those of its second
    row when it is (opponent, team). *)
Definition pair_points (tm opp : string) (p : ScoreRow * ScoreRow) : list Qc :=
  (if String.eqb (manager_nickname (fst p)) tm
      && String.eqb (manager_nickname (snd p)) opp
   then [team_points (fst p)] else [])
  ++ (if String.eqb (manager_nickname (snd p)) tm
         && String.eqb (manager_nickname (fst p)) opp
      then [team_points (snd p)] else []).

(** The points of [team] in its resolved matchups against [opponent], once
    for each resolved pair. *)
Definition spec_points_against (t : Table) (selected : list string)
    (tm opp : string) : list Qc :=
  flat_map (pair_points tm opp) (spec_resolved_pairs t selected).

(** ** Data access layer (lines 19-29 and 290-292) *)

Record RosterRow := mkRoster {
  r_week : Z;
  manager_name : string;
  full_name : string;
  roster_position : string;
  team_abbr : option string
}.

Definition rosters_path : string := "rosters_csv/master_rosters.csv".
Definition scoreboard_path : string := "weekly_scoreboard_csv/master_scoreboard.csv".

(** What a path holds: a file that [pd.read_csv] parses, no file, or
    something [pd.read_csv] fails on with another error than
    [FileNotFoundError]: an empty file ([EmptyDataError]), a directory
    ([IsADirectoryError]), a file without read permission
    ([PermissionError]), malformed content ([ParserError]).  [error] is the
    text of that error. *)
Inductive File (A : Type) :=
  | Parsed (content : A)
  | Missing
  | Unreadable (error : string).

Arguments Parsed {A} content.
Arguments Missing {A}.
Arguments Unreadable {A} error.

Record Disk := mkDisk {
  rosters_file : File (list RosterRow);
  scoreboard_file : File Table
}.

(** The exceptions [pd.read_csv] raises. *)
Inductive Exn :=
  | FileNotFoundError (path : string)
  | OtherError (error : string).

(** [str(e)] *)
Definition exn_message (e : Exn) : string :=
  match e with
  | FileNotFoundError path =>
      ("[Errno 2] No such file or directory: '" ++ path ++ "'")%string
  | OtherError error => error
  end.

(** A call returns, or raises an exception that nothing catches. *)
Inductive Outcome (A : Type) :=
  | Returns (a : A)
  | Raises (e : Exn).

Arguments Returns {A} a.
Arguments Raises {A} e.

(** [pd.read_csv(path)] *)
Definition read_csv {A} (file : File A) (path : string) : Exn + A :=
  match file with
  | Parsed t => inr t
  | Missing => inl (FileNotFoundError path)
  | Unreadable error => inl (OtherError error)
  end.

(** [load_data()], lines 20-27: the returned pair and the messages passed
    to [st.error].  The [except] clause catches [FileNotFoundError] only. *)
Definition load_data (d : Disk)
    : Outcome ((option (list RosterRow) * option Table) * list string) :=
  match read_csv (rosters_file d) rosters_path with
  | inl (FileNotFoundError p) =>
      Returns ((None, None),
               [("Could not load data files: "
                 ++ exn_message (FileNotFoundError p))%string])
  | inl (OtherError error) => Raises (OtherError error)
  | inr rosters_df =>
      match read_csv (scoreboard_file d) scoreboard_path with
      | inl (FileNotFoundError p) =>
          Returns ((None, None),
                   [("Could not load data files: "
                     ++ exn_message (FileNotFoundError p))%string])
      | inl (OtherError error) => Raises (OtherError error)
      | inr scoreboard_df => Returns ((Some rosters_df, Some scoreboard_df), [])
      end
  end.

(** A message on the page: [st.error(text)] or [st.info(text)]. *)
Inductive Message :=
  | Error (text : string)
  | Info (text : string).

(** What the page shows after line 29. *)
Inductive Page :=
  | Dashboard (rosters_df : list RosterRow) (scoreboard_df : Table)
  | NoData (messages : list Message).

Definition no_data_message : string :=
  "Could not load the required CSV files. Please make sure 'rosters_csv/master_rosters.csv' and 'weekly_scoreboard_csv/master_scoreboard.csv' exist.".

Definition run_scripts_message : string :=
  "Run the CSV conversion scripts first to generate the required files.".

(** Lines 29-31 and 290-292; an exception of [load_data] ends the script. *)
Definition page (d : Disk) : Outcome Page :=
  match load_data d with
  | Raises e => Raises e
  | Returns ((rosters_df, scoreboard_df), log) =>
      Returns
        match rosters_df, scoreboard_df with
        | Some r, Some s => Dashboard r s
        | _, _ => NoData (map Error log
                          ++ [Error no_data_message; Info run_scripts_message])
        end
  end.

(** ** The script's objects

    DataFrames are objects on a heap, and the script assigns columns and
    cells in place.  A scoreboard-shaped frame carries the columns the
    script may add to it. *)

Record ScoreFrame := mkScoreFrame {
  sf_rows : Table;
  sf_wins : option (list Z);
  sf_cumulative_wins : option (list Z);
  sf_games_played : option (list Z);
  sf_win_percentage : option (list Qc)
}.

Definition plain_frame (t : Table) : ScoreFrame :=
  mkScoreFrame t None None None None.

Inductive Obj :=
  | OScore (f : ScoreFrame)
  | OWin (m : WinFrame).

Abbreviation Heap := (list Obj).

(** A computation on the heap; [None] is an exception. *)
Definition Prog (A : Type) : Type := Heap → option (A * Heap).

Definition ret {A} (a : A) : Prog A := fun h => Some (a, h).

Definition bind {A B} (m : Prog A) (k : A → Prog B) : Prog B :=
  fun h => match m h with
           | Some (a, h') => k a h'
           | None => None
           end.

#[global] Instance Prog_ret : MRet Prog := @ret.
#[global] Instance Prog_bind : MBind Prog := fun A B k m => bind m k.

(** A new object. *)
Definition alloc (o : Obj) : Prog nat :=
  fun h => Some (length h, h ++ [o]).

Definition get_score (r : nat) : Prog ScoreFrame :=
  fun h => match h !! r with
           | Some (OScore f) => Some (f, h)
           | _ => None
           end.

Definition get_win (r : nat) : Prog WinFrame :=
  fun h => match h !! r with
           | Some (OWin m) => Some (m, h)
           | _ => None
           end.

(** In-place update of the object behind a reference. *)
Definition put (r : nat) (o : Obj) : Prog unit :=
  fun h => if decide (r < length h)%nat then Some (tt, <[r := o]> h) else None.

(** A missing column raises [KeyError]. *)
Definition column {A} (c : option A) : Prog A :=
  fun h => match c with Some a => Some (a, h) | None => None end.

Definition lift {A} (o : option A) : Prog A := column o.

Fixpoint for_each {A S} (body : S → A → Prog S) (l : list A) (s : S) : Prog S :=
  match l with
  | [] => ret s
  | a :: rest => s' ← body s a; for_each body rest s'
  end.

(** Lines 52-55: the filtered frame is a new object. *)
Definition filter_prog (scoreboard : nat) (selected_teams : list string)
    (week_range : Z * Z) : Prog nat :=
  df ← get_score scoreboard;
  alloc (OScore (plain_frame
                   (filtered_scoreboard (sf_rows df) selected_teams week_range))).

(** Lines 86-91, the loop body for one team. *)
Definition team_prog (filtered : nat) (tm : string) : Prog (list WinPctRow) :=
  f ← get_score filtered;
  td ← alloc (OScore (plain_frame (team_data (sf_rows f) tm)));
  t ← get_score td;
  _ ← put td (OScore (mkScoreFrame (sf_rows t) (Some (wins_col (sf_rows t)))
                 (sf_cumulative_wins t) (sf_games_played t) (sf_win_percentage t)));
  t ← get_score td;
  wins ← column (sf_wins t);
  _ ← put td (OScore (mkScoreFrame (sf_rows t) (sf_wins t)
                 (Some (cumsum wins)) (sf_games_played t) (sf_win_percentage t)));
  t ← get_score td;
  _ ← put td (OScore (mkScoreFrame (sf_rows t) (sf_wins t)
                 (sf_cumulative_wins t) (Some (games_played_col (sf_rows t)))
                 (sf_win_percentage t)));
  t ← get_score td;
  cw ← column (sf_cumulative_wins t);
  gp ← column (sf_games_played t);
  _ ← put td (OScore (mkScoreFrame (sf_rows t) (sf_wins t)
                 (sf_cumulative_wins t) (sf_games_played t)
                 (Some (win_percentage_col cw gp))));
  t ← get_score td;
  wp ← column (sf_win_percentage t);
  ret (map (fun p => mkWinPct (week (fst p)) (manager_nickname (fst p)) (snd p))
           (combine (sf_rows t) wp)).

(** Lines 84-91. *)
Definition win_data_prog (filtered : nat) (selected_teams : list string)
    : Prog (list (list WinPctRow)) :=
  for_each (fun acc tm => frame ← team_prog filtered tm; ret (acc ++ [frame]))
           selected_teams [].

(** Lines 195-214, reading the frame [matchups]. *)
Definition win_matrix_prog (matchups : nat) (selected_teams : list string)
    : Prog WinFrame :=
  wm ← alloc (OWin (new_frame selected_teams selected_teams 0));
  m ← get_score matchups;
  _ ← for_each (fun _ row =>
                  mm ← get_score matchups;
                  cur ← get_win wm;
                  new ← lift (win_matrix_body (sf_rows mm) selected_teams cur row);
                  put wm (OWin new))
               (sf_rows m) tt;
  final ← get_win wm;
  _ ← alloc (OWin final);
  ret final.

(** Lines 229-255, reading the same frame [matchups]; [h2h_points] is a
    list local to the script. *)
Definition avg_h2h_prog (group_mean : list Qc → Qc) (matchups : nat)
    (selected_teams : list string) : Prog (option (list H2HRecord)) :=
  m ← get_score matchups;
  lift (avg_h2h group_mean (sf_rows m) selected_teams).

(** Lines 194-255: [matchups = filtered_scoreboard.copy()] is a new object,
    read by both loops. *)
Definition head_to_head_prog (group_mean : list Qc → Qc) (filtered : nat)
    (selected_teams : list string)
    : Prog (WinFrame * option (list H2HRecord)) :=
  f ← get_score filtered;
  matchups ← alloc (OScore f);
  wm ← win_matrix_prog matchups selected_teams;
  avg ← avg_h2h_prog group_mean matchups selected_teams;
  ret (wm, avg).

(** The tables derived from the filtered frame. *)
Record Derived := mkDerived {
  d_win_data : list (list WinPctRow);
  d_win_matrix : WinFrame;
  d_avg_h2h : option (list H2HRecord)
}.

Definition derive_tables (group_mean : list Qc → Qc) (filtered : nat)
    (selected_teams : list string) : Prog Derived :=
  wd ← win_data_prog filtered selected_teams;
  h2h ← head_to_head_prog group_mean filtered selected_teams;
  ret (mkDerived wd (fst h2h) (snd h2h)).

(** One run of the script body after loading: the filter, then the derived
    tables.  The result holds the rows of the filtered frame. *)
Definition script_body (group_mean : list Qc → Qc) (scoreboard : nat)
    (selected_teams : list string) (week_range : Z * Z)
    : Prog (Table * Derived) :=
  filtered ← filter_prog scoreboard selected_teams week_range;
  f ← get_score filtered;
  d ← derive_tables group_mean filtered selected_teams;
  ret (sf_rows f, d).

(** ** Sidebar (lines 36-49) *)

(** [Series.unique()]: the distinct values, in order of first appearance. *)
Fixpoint unique (l : list string) : list string :=
  match l with
  | [] => []
  | x :: l' => x :: List.filter (fun y => negb (String.eqb y x)) (unique l')
  end.

(** [sorted(values)] on strings: ascending by code point. *)
Fixpoint insert_string (x : string) (l : list string) : list string :=
  match l with
  | [] => [x]
  | y :: l' => if String.leb x y then x :: y :: l' else y :: insert_string x l'
  end.

Definition sorted_strings (l : list string) : list string :=
  fold_right insert_string [] l.

(** Line 36. *)
Definition teams (scoreboard_df : Table) : list string :=
  sorted_strings (unique (map manager_nickname scoreboard_df)).

(** Line 40: the default of the multiselect. *)
Definition default_teams (teams : list string) : list string :=
  if (5 <? length teams)%nat then firstn 5 teams else teams.

(** [Series.max()] on integers; an empty Series gives NaN, which is
    [None]. *)
Definition series_max_Z (l : list Z) : option Z :=
  match l with
  | [] => None
  | x :: l' => Some (fold_left Z.max l' x)
  end.

(** Line 44: [int(scoreboard_df['week'].max())]; [int] of NaN raises
    [ValueError]. *)
Definition max_week (scoreboard_df : Table) : option Z :=
  series_max_Z (map week scoreboard_df).

(** ** Roster tabs (lines 120-185) *)

Definition RosterTable := list RosterRow.


Definition roster_key (r : RosterRow) : string * string :=
  (manager_name r, roster_position r).

(** One row of [position_counts]. *)
Record PositionCount := mkPositionCount {
  pc_manager_name : string;
  pc_roster_position : string;
  pc_count : nat
}.

(** Line 132: [groupby(['manager_name', 'roster_position']).size()
    .reset_index(name='count')]; the groups come in ascending key order. *)
Definition position_counts (filtered : RosterTable) : list PositionCount :=
  map (fun k => mkPositionCount (fst k) (snd k)
                  (length (List.filter (fun r => key_eqb (roster_key r) k) filtered)))
      (fold_right insert_key [] (map roster_key filtered)).

(** Sorting counts in descending order.  pandas leaves the order of equal
    counts to its sorting algorithm; the model keeps their relative order,
    and the properties below do not depend on it. *)
Fixpoint insert_count (e : string * nat) (l : list (string * nat))
    : list (string * nat) :=
  match l with
  | [] => [e]
  | x :: l' => if (snd x <=? snd e)%nat then e :: x :: l'
               else x :: insert_count e l'
  end.

Definition sort_counts (l : list (string * nat)) : list (string * nat) :=
  fold_right insert_count [] l.

Definition count_value (v : string) (l : list string) : nat :=
  length (List.filter (String.eqb v) l).

(** [Series.value_counts()] on a column without missing values: the
    distinct values with their numbers of occurrences, most frequent
    first. *)
Definition value_counts (l : list string) : list (string * nat) :=
  sort_counts (map (fun v => (v, count_value v l)) (unique l)).

(** Missing values are dropped by [value_counts]. *)
Definition dropna (l : list (option string)) : list string := omap id l.

(** Line 148. *)
Definition overall_positions (filtered : RosterTable) : list (string * nat) :=
  value_counts (map roster_position filtered).

(** Line 163: [value_counts().head(20)]. *)
Definition player_usage (filtered : RosterTable) : list (string * nat) :=
  firstn 20 (value_counts (map full_name filtered)).

(** Lines 176-177: computed only when the frame has a [team_abbr] column;
    [columns] are the column names of the roster frame. *)
Definition team_usage (columns : list string) (filtered : RosterTable)
    : option (list (string * nat)) :=
  if in_list "team_abbr" columns
  then Some (firstn 15 (value_counts (dropna (map team_abbr filtered))))
  else None.

(** ** Season summary (lines 269-288) *)

(** [Series.mean()] and [Series.max()] on points; NaN on an empty Series is
    [None].  [series_mean] is pandas' mean of a non-empty column. *)
Definition points_mean (series_mean : list Qc → Qc) (l : list Qc) : option Qc :=
  match l with
  | [] => None
  | _ => Some (series_mean l)
  end.

Definition Qc_max (a b : Qc) : Qc := if points_gt b a then b else a.

Definition series_max (l : list Qc) : option Qc :=
  match l with
  | [] => None
  | x :: l' => Some (fold_left Qc_max l' x)
  end.

(** [points == max_points], false against NaN. *)
Definition points_eq (p : Qc) (m : option Qc) : bool :=
  match m with
  | Some x => Qc_eq_bool p x
  | None => false
  end.

(** Line 279: [filtered_scoreboard[filtered_scoreboard['team_points'] ==
    max_points]['manager_nickname'].iloc[0]]; [iloc[0]] on an empty Series
    raises [IndexError]. *)
Definition top_scorer (filtered : Table) (max_points : option Qc)
    : option string :=
  nth_error
    (map manager_nickname
       (boolean_index filtered
          (map (fun p => points_eq p max_points) (map team_points filtered))))
    0.

Record Summary := mkSummary {
  s_avg_points : option Qc;
  s_max_points : option Qc;
  s_top_scorer : string;
  s_total_games : nat;
  s_weeks_played : nat
}.

(** Lines 273-288; [None] is the exception of line 279.  The formatting of
    the numbers for display is not modelled. *)
Definition season_summary (series_mean : list Qc → Qc) (filtered : Table)
    : option Summary :=
  let avg_points := points_mean series_mean (map team_points filtered) in
  let max_points := series_max (map team_points filtered) in
  scorer ← top_scorer filtered max_points;
  let total_games := (length filtered / 2)%nat in
  let weeks_played := length (remove_dups (map week filtered)) in
  Some (mkSummary avg_points max_points scorer total_games weeks_played).

(** ** Auxiliary notions used in the statements *)

(** Ascending order of periods. *)
Definition week_le (a b : ScoreRow) : Prop := week a ≤ week b.

(** The win flag of a record, and the number of wins among some records. *)
Definition is_win (r : ScoreRow) : bool :=
  String.eqb (winner_team_key r) (team_key r).

Definition wins_among (l : Table) : Z :=
  Z.of_nat (length (List.filter is_win l)).

(** A frame whose row and column labels are the selected teams. *)
Definition frame_over (sel : list string) (m : WinFrame) : Prop :=
  index m = sel ∧ columns m = sel ∧ length (cells m) = length sel
  ∧ Forall (fun row => length row = length sel) (cells m).

(** How often a label occurs among the labels of an axis. *)
Definition occurrences (x : string) (l : list string) : Z :=
  sum_Z (map (fun y => if String.eqb y x then 1 else 0) l).

(** A group resolves: exactly two rows, both of selected entities. *)
Definition resolves (sel : list string) (g : Table) : Prop :=
  length g = 2%nat ∧ ∀ r, In r g → In (manager_nickname r) sel.

(** The records a group contributes to [h2h_points]. *)
Definition group_records (sel : list string) (g : Table) : list H2HRecord :=
  match spec_resolve sel g with
  | Some p => spec_directed p
  | None => []
  end.

(** Cells are counts, and no entity has a win against itself. *)
Definition counts_off_diagonal (sel : list string) (m : WinFrame) : Prop :=
  ∀ i j a b v,
    nth_error sel i = Some a → nth_error sel j = Some b →
    cell m i j = Some v → (a = b → v = 0) ∧ 0 ≤ v.

(** [n] copies of a list, one after the other. *)
Definition copies {X} (n : nat) (l : list X) : list X := concat (repeat l n).

(** How often a key occurs in a list of keys. *)
Definition key_count {K} `{EqDecision K} (k : K) (ks : list K) : nat :=
  length (List.filter (fun x => bool_decide (x = k)) ks).

(** One mark per resolved group. *)
Definition group_mark (sel : list string) (g : Table) : list unit :=
  match spec_resolve sel g with
  | Some _ => [tt]
  | None => []
  end.

(** ** The fixed input of the specification's example

    Periods 1-2 and entities A, B, C: A beats B 100-90 in period 1 and C
    beats A 80-70 in period 2. *)

Definition row_A1 : ScoreRow := mkRow 1 "A" 1 (Qc_of_Z 100) "key.A" "key.A".
Definition row_B1 : ScoreRow := mkRow 1 "B" 1 (Qc_of_Z 90) "key.A" "key.B".
Definition row_C2 : ScoreRow := mkRow 2 "C" 1 (Qc_of_Z 80) "key.C" "key.C".
Definition row_A2 : ScoreRow := mkRow 2 "A" 1 (Qc_of_Z 70) "key.C" "key.A".

Definition example_scoreboard : Table := [row_A1; row_B1; row_C2; row_A2].

Definition example_selection : list string := ["A"; "B"; "C"]%string.

Definition example_matchups : Table :=
  filtered_scoreboard example_scoreboard example_selection (1, 2).

(** A disk on which only the roster file is missing. *)
Definition disk_without_rosters : Disk :=
  mkDisk Missing (Parsed example_scoreboard).

(** A disk on which only the scoreboard file is missing. *)
Definition disk_without_scoreboard : Disk :=
  mkDisk (Parsed []) Missing.

(** A disk whose roster file exists and is empty. *)
Definition disk_with_empty_rosters : Disk :=
  mkDisk (Unreadable "No columns to parse from file") (Parsed example_scoreboard).

(** The file can be read. *)
Definition is_parsed {A} (file : File A) : Prop := ∃ t, file = Parsed t.

(** The message [load_data] passes to [st.error] when [path] is missing. *)
Definition load_error (path : string) : string :=
  ("Could not load data files: " ++ exn_message (FileNotFoundError path))%string.

(** The frame a team's loop iteration leaves on the heap. *)
Definition team_frame (filtered : Table) (tm : string) : ScoreFrame :=
  let td := team_data filtered tm in
  mkScoreFrame td (Some (wins_col td)) (Some (cumsum (wins_col td)))
    (Some (games_played_col td))
    (Some (win_percentage_col (cumsum (wins_col td)) (games_played_col td))).

(** A heap holding the example scoreboard as its only object. *)
Definition example_heap : Heap := [OScore (plain_frame example_scoreboard)].

(** A scoreboard whose matchup 1 of period 1 has three rows, the third of an
    entity outside the selection A, B. *)
Definition row_D1 : ScoreRow := mkRow 1 "D" 1 (Qc_of_Z 95) "key.A" "key.D".

Definition three_row_scoreboard : Table := [row_A1; row_B1; row_D1].

(** Ascending order of strings. *)
Definition string_le (a b : string) : Prop := String.leb a b = true.

(** The resolved pairs won by [a] over [b]. *)
Definition won_by (a b : string) (p : ScoreRow * ScoreRow) : bool :=
  String.eqb (winner_of (fst p) (snd p)) a
  && String.eqb (loser_of (fst p) (snd p)) b.

(** One mark per resolved group won by [a] over [b]. *)
Definition win_mark (sel : list string) (a b : string) (g : Table) : list unit :=
  match spec_resolve sel g with
  | Some p => if won_by a b p then [tt] else []
  | None => []
  end.

(** Strictly ascending order of group keys. *)
Definition key_lt (a b : string * string) : Prop := key_compare a b = Lt.

(** Descending order of counts. *)
Definition count_ge (a b : string * nat) : Prop := (snd b ≤ snd a)%nat.

Definition pc_key (p : PositionCount) : string * string :=
  (pc_manager_name p, pc_roster_position p).

(** The rows of a roster with a given key. *)
Definition rows_with_key (k : string * string) (l : RosterTable) : nat :=
  length (List.filter (fun r => key_eqb (roster_key r) k) l).

(** Filtered roster rows of the example entities. *)
Definition example_rosters : RosterTable :=
  [ mkRoster 1 "A" "P. Mahomes" "QB" (Some "KC");
    mkRoster 1 "A" "T. Kelce" "TE" (Some "KC");
    mkRoster 1 "B" "J. Allen" "QB" (Some "BUF");
    mkRoster 2 "A" "P. Mahomes" "QB" (Some "KC");
    mkRoster 2 "C" "Free Agent" "BN" None ].

Definition example_roster_columns : list string :=
  ["week"; "manager_name"; "full_name"; "roster_position"; "team_abbr"]%string.

(** ** What the head-to-head loops record, written out

    These notions restate lines 203-211 and 237-251 on a group given as a
    list of rows; they are what the results of the loops are compared
    with. *)

(** The pair (x, y) records a win of [a] over [b]: the first row wins when
    its points are strictly greater, the second row otherwise. *)
Definition pair_win (a b : string) (x y : ScoreRow) : bool :=
  if Qclt_le_dec (team_points y) (team_points x)
  then String.eqb (manager_nickname x) a && String.eqb (manager_nickname y) b
  else String.eqb (manager_nickname y) a && String.eqb (manager_nickname x) b.

(** A group of exactly two rows that records a win of [a] over [b]. *)
Definition two_rows_win (a b : string) (g : Table) : bool :=
  match g with
  | [x; y] => pair_win a b x y
  | _ => false
  end.

(** The same for a group whose two rows are of selected entities. *)
Definition records_win (sel : list string) (a b : string) (g : Table) : bool :=
  match g with
  | [x; y] => in_list (manager_nickname x) sel && in_list (manager_nickname y) sel
              && pair_win a b x y
  | _ => false
  end.

(** The two directed records of a group of exactly two rows. *)
Definition two_rows_records (g : Table) : list H2HRecord :=
  match g with
  | [x; y] => [ mkH2H (manager_nickname x) (manager_nickname y) (team_points x);
                mkH2H (manager_nickname y) (manager_nickname x) (team_points y) ]
  | _ => []
  end.

(** The points the second loop collects for (team, opponent), in row order:
    every row whose (week, matchup) group is a resolved pair contributes the
    points the pair holds for them. *)
Definition emitted_points_against (t : Table) (sel : list string)
    (tm opp : string) : list Qc :=
  flat_map (fun row =>
              match spec_resolve sel (spec_group t (matchup_key row)) with
              | Some p => pair_points tm opp p
              | None => []
              end)
           t.

(** Sums and the mean in exact arithmetic.  The examples take the exact
    mean for the mean parameter. *)
Definition sum_Qc (l : list Qc) : Qc := fold_right Qcplus (Qc_of_Z 0) l.

Definition exact_mean (l : list Qc) : Qc :=
  (sum_Qc l / Qc_of_Z (Z.of_nat (length l)))%Qc.

(** Two matchups of A against B: 60.0 to 55.0 in week 1 and 60.7 to 70.1 in
    week 2. *)
Definition rematch_A1 : ScoreRow := mkRow 1 "A" 1 (Qc_of_Z 60) "key.A" "key.A".
Definition rematch_B1 : ScoreRow := mkRow 1 "B" 1 (Qc_of_Z 55) "key.A" "key.B".
Definition rematch_A2 : ScoreRow := mkRow 2 "A" 1 (Q2Qc (607 # 10)) "key.B" "key.A".
Definition rematch_B2 : ScoreRow := mkRow 2 "B" 1 (Q2Qc (701 # 10)) "key.B" "key.B".

Definition rematch_scoreboard : Table :=
  [rematch_A1; rematch_B1; rematch_A2; rematch_B2].

Definition rematch_selection : list string := ["A"; "B"]%string.

Definition rematch_matchups : Table :=
  filtered_scoreboard rematch_scoreboard rematch_selection (1, 2).

(** The summary of the example, with a placeholder should it raise. *)
Definition example_summary : Summary :=
  match season_summary exact_mean example_matchups with
  | Some s => s
  | None => mkSummary None None "" 0 0
  end.

(** The averages of the example. *)
Definition example_averages : list H2HRecord :=
  match avg_h2h exact_mean example_matchups example_selection with
  | Some (Some table) => table
  | _ => []
  end.

(** * Properties *)

(** ** Boolean masks *)

Lemma combine_map_same {A B C} (f : A → B) (g : A → C) (l : list A) :
  combine (map f l) (map g l) = map (fun x => (f x, g x)) l.
Proof. induction l as [|x l IH]; simpl; [reflexivity | now rewrite IH]. Qed.

Lemma mask_and_map {A} (f g : A → bool) (l : list A) :
  mask_and (map f l) (map g l) = map (fun x => f x && g x) l.
Proof.
  unfold mask_and. rewrite combine_map_same, map_map. reflexivity.
Qed.

Lemma boolean_index_map {A} (p : A → bool) (l : list A) :
  boolean_index l (map p l) = List.filter p l.
Proof.
  unfold boolean_index.
  induction l as [|x l IH]; simpl; [reflexivity|].
  destruct (p x); simpl; now rewrite IH.
Qed.

Lemma in_list_In x l : in_list x l = true ↔ In x l.
Proof.
  unfold in_list. rewrite existsb_exists. split.
  - intros (y & Hy & Heq). apply String.eqb_eq in Heq. now subst.
  - intros H. exists x. split; [assumption | apply String.eqb_refl].
Qed.

Lemma filtered_scoreboard_filter df sel range :
  filtered_scoreboard df sel range = List.filter (selects sel range) df.
Proof.
  unfold filtered_scoreboard, isin, between.
  rewrite !map_map, mask_and_map. apply boolean_index_map.
Qed.

Lemma selects_true sel range r :
  selects sel range r = true ↔
  In (manager_nickname r) sel ∧ fst range ≤ week r ≤ snd range.
Proof.
  unfold selects. rewrite !andb_true_iff, !Z.leb_le.
  change (existsb (String.eqb (manager_nickname r)) sel)
    with (in_list (manager_nickname r) sel).
  rewrite in_list_In. tauto.
Qed.

Lemma filter_sublist {A} (p : A → bool) (l : list A) :
  List.filter p l `sublist_of` l.
Proof.
  induction l as [|x l IH]; simpl; [constructor|].
  destruct (p x); now constructor.
Qed.

Lemma count_occ_filter_true {A} (dec : ∀ x y : A, {x = y} + {x ≠ y})
    (p : A → bool) (l : list A) (a : A) :
  p a = true → count_occ dec (List.filter p l) a = count_occ dec l a.
Proof.
  intros Ha. induction l as [|x l IH]; simpl; [reflexivity|].
  destruct (dec x a) as [->|Hne].
  - rewrite Ha. simpl. destruct (dec a a); [now rewrite IH | contradiction].
  - destruct (p x); simpl; [|assumption].
    destruct (dec x a); [contradiction | assumption].
Qed.

(** C3: the filter keeps exactly the rows of selected entities whose period
    lies in the inclusive range: membership is the selection predicate on
    the input rows, the output is a subsequence of the input (row order is
    kept), and a selected row occurs as often as in the input (nothing is
    deduplicated). *)
Theorem filtered_scoreboard_exact (df : Table) (sel : list string) (lo hi : Z) :
  let out := filtered_scoreboard df sel (lo, hi) in
  (∀ r, In r out ↔ In r df ∧ In (manager_nickname r) sel ∧ lo ≤ week r ≤ hi)
  ∧ out `sublist_of` df
  ∧ (∀ r, In (manager_nickname r) sel → lo ≤ week r ≤ hi →
          count_occ ScoreRow_eq_dec out r = count_occ ScoreRow_eq_dec df r).
Proof.
  intros out. subst out. rewrite filtered_scoreboard_filter.
  split; [|split].
  - intros r. rewrite filter_In, selects_true. simpl. tauto.
  - apply filter_sublist.
  - intros r Hs Hw. apply count_occ_filter_true.
    apply selects_true. simpl. tauto.
Qed.

(** ** Sorting by week *)

Lemma insert_by_week_perm r l : insert_by_week r l ≡ₚ r :: l.
Proof.
  induction l as [|x l IH]; simpl; [reflexivity|].
  destruct (week r <=? week x); [reflexivity|].
  rewrite IH. apply Permutation_swap.
Qed.

Lemma sort_values_week_perm l : sort_values_week l ≡ₚ l.
Proof.
  induction l as [|r l IH]; simpl; [reflexivity|].
  rewrite insert_by_week_perm. now constructor.
Qed.

Lemma insert_by_week_sorted r l :
  Sorted week_le l → Sorted week_le (insert_by_week r l).
Proof.
  induction 1 as [|x l Hs IH Hhd]; simpl.
  - repeat constructor.
  - destruct (Z.leb_spec (week r) (week x)) as [Hle|Hgt].
    + constructor; [now constructor | now constructor].
    + constructor; [assumption|].
      destruct l as [|y l]; simpl in *.
      * constructor. unfold week_le. lia.
      * inversion Hhd; subst.
        destruct (Z.leb_spec (week r) (week y)); constructor;
          unfold week_le in *; lia.
Qed.

Lemma sort_values_week_sorted l : Sorted week_le (sort_values_week l).
Proof.
  induction l as [|r l IH]; simpl; [constructor|].
  now apply insert_by_week_sorted.
Qed.

Lemma team_data_filter filtered tm :
  team_data filtered tm =
  sort_values_week
    (List.filter (fun r => String.eqb (manager_nickname r) tm) filtered).
Proof.
  unfold team_data. rewrite map_map, boolean_index_map. reflexivity.
Qed.

(** ** Running sums *)

Lemma sum_Z_app l1 l2 : sum_Z (l1 ++ l2) = sum_Z l1 + sum_Z l2.
Proof. induction l1 as [|x l1 IH]; simpl; [reflexivity | rewrite IH; lia]. Qed.

Lemma cumsum_from_length acc l : length (cumsum_from acc l) = length l.
Proof. revert acc. induction l as [|x l IH]; intros; simpl; [|rewrite IH]; reflexivity. Qed.

Lemma cumsum_from_nth l : ∀ acc i, (i < length l)%nat →
  nth_error (cumsum_from acc l) i = Some (acc + sum_Z (firstn (S i) l)).
Proof.
  induction l as [|x l IH]; intros acc i Hi; simpl in Hi; [lia|].
  destruct i as [|i].
  - simpl. f_equal. destruct l; simpl; lia.
  - change (nth_error (cumsum_from (acc + x) l) i
            = Some (acc + sum_Z (x :: firstn (S i) l))).
    rewrite IH by lia. simpl. f_equal. lia.
Qed.

Lemma sum_wins_col l : sum_Z (wins_col l) = wins_among l.
Proof.
  unfold wins_among, wins_col.
  induction l as [|r l IH]; simpl; [reflexivity|].
  unfold is_win at 1. destruct (String.eqb _ _); simpl length; lia.
Qed.

Lemma wins_among_bounds l : 0 ≤ wins_among l ≤ Z.of_nat (length l).
Proof.
  unfold wins_among. pose proof (filter_length_le is_win l). lia.
Qed.

Lemma firstn_wins_col k l : firstn k (wins_col l) = wins_col (firstn k l).
Proof. unfold wins_col. now rewrite firstn_map. Qed.

Lemma percentage_bounds (c k : Z) :
  0 ≤ c ≤ k → 0 < k →
  (0 ≤ Qc_of_Z c / Qc_of_Z k * Qc_of_Z 100 ∧
   Qc_of_Z c / Qc_of_Z k * Qc_of_Z 100 ≤ Qc_of_Z 100)%Qc.
Proof.
  intros [Hc Hck] Hk.
  assert (Hk' : (0 < Qc_of_Z k)%Qc)
    by (rewrite <- Z2Qc_inj_0; apply (proj1 (Z2Qc_inj_lt 0 k)); lia).
  assert (Hc' : (0 ≤ Qc_of_Z c)%Qc)
    by (rewrite <- Z2Qc_inj_0; apply (proj1 (Z2Qc_inj_le 0 c)); lia).
  assert (H100 : (0 ≤ Qc_of_Z 100)%Qc)
    by (rewrite <- Z2Qc_inj_0; apply (proj1 (Z2Qc_inj_le 0 100)); lia).
  assert (Hinv : (0 < / Qc_of_Z k)%Qc) by now apply Qcinv_pos.
  assert (Hq : (0 ≤ Qc_of_Z c / Qc_of_Z k)%Qc).
  { apply Qcmult_nonneg_nonneg; [assumption | now apply Qclt_le_weak]. }
  assert (Hq1 : (Qc_of_Z c / Qc_of_Z k ≤ 1)%Qc).
  { apply (Qcmult_le_mono_pos_r _ _ (Qc_of_Z k)); [assumption|].
    unfold Qcdiv. rewrite <- Qcmult_assoc, (Qcmult_comm (/ _)), Qcmult_inv_r.
    - rewrite Qcmult_1_r, Qcmult_1_l. now apply (proj1 (Z2Qc_inj_le c k)).
    - intros E. rewrite E in Hk'. now apply Qclt_not_eq in Hk'. }
  split.
  - now apply Qcmult_nonneg_nonneg.
  - rewrite <- (Qcmult_1_l (Qc_of_Z 100)) at 2.
    now apply Qcmult_le_mono_nonneg_r.
Qed.

Lemma win_percentage_col_nth cw gp i c g :
  nth_error cw i = Some c → nth_error gp i = Some g →
  nth_error (win_percentage_col cw gp) i
  = Some (Qc_of_Z c / Qc_of_Z g * Qc_of_Z 100)%Qc.
Proof.
  revert gp i. induction cw as [|x cw IH]; intros gp i Hc Hg.
  - destruct i; discriminate.
  - destruct gp as [|y gp]; [destruct i; discriminate|].
    destruct i as [|i]; simpl in *.
    + now inversion Hc; inversion Hg; subst.
    + now apply IH.
Qed.

Lemma games_played_col_nth td i :
  (i < length td)%nat →
  nth_error (games_played_col td) i = Some (Z.of_nat (S i)).
Proof.
  intros Hi. unfold games_played_col.
  rewrite nth_error_map, nth_error_seq.
  destruct (Nat.ltb_spec i (length td)); [reflexivity | lia].
Qed.

Lemma combine_nth_error {A B} (l1 : list A) (l2 : list B) i a b :
  nth_error l1 i = Some a → nth_error l2 i = Some b →
  nth_error (combine l1 l2) i = Some (a, b).
Proof.
  revert l2 i. induction l1 as [|x l1 IH]; intros l2 i H1 H2.
  - destruct i; discriminate.
  - destruct l2 as [|y l2]; [destruct i; discriminate|].
    destruct i as [|i]; simpl in *.
    + now inversion H1; inversion H2.
    + now apply IH.
Qed.

Lemma win_percentage_col_length cw gp :
  length cw = length gp → length (win_percentage_col cw gp) = length cw.
Proof.
  intros H. unfold win_percentage_col.
  rewrite length_map, length_combine. lia.
Qed.

Lemma team_win_frame_length filtered tm :
  length (team_win_frame filtered tm) = length (team_data filtered tm).
Proof.
  unfold team_win_frame. rewrite length_map, length_combine.
  rewrite win_percentage_col_length.
  - unfold cumsum, wins_col. rewrite cumsum_from_length, length_map. lia.
  - unfold cumsum, wins_col, games_played_col.
    now rewrite cumsum_from_length, !length_map, length_seq.
Qed.

Lemma team_win_frame_nth filtered tm i r :
  nth_error (team_data filtered tm) i = Some r →
  nth_error (team_win_frame filtered tm) i
  = Some (mkWinPct (week r) (manager_nickname r)
            (Qc_of_Z (wins_among (firstn (S i) (team_data filtered tm)))
             / Qc_of_Z (Z.of_nat (S i)) * Qc_of_Z 100)%Qc).
Proof.
  intros Hr.
  assert (Hi : (i < length (team_data filtered tm))%nat)
    by (apply nth_error_Some; congruence).
  unfold team_win_frame. rewrite nth_error_map.
  erewrite combine_nth_error; [| exact Hr |].
  2:{ apply win_percentage_col_nth.
      - unfold cumsum. apply cumsum_from_nth.
        unfold wins_col. now rewrite length_map.
      - now apply games_played_col_nth. }
  simpl. rewrite firstn_wins_col, sum_wins_col. reflexivity.
Qed.

(** C2: for every selected entity, its frame in [win_data] is computed over
    its filtered records sorted by ascending period, and the percentage at
    its k-th played game is (wins among the first k records) / k * 100, a
    value between 0 and 100. *)
Theorem win_percentage_running_average
    (scoreboard_df : Table) (sel : list string) (lo hi : Z)
    (i : nat) (tm : string) :
  nth_error sel i = Some tm →
  let filtered := filtered_scoreboard scoreboard_df sel (lo, hi) in
  let td := team_data filtered tm in
  td ≡ₚ List.filter (fun r => String.eqb (manager_nickname r) tm) filtered
  ∧ Sorted week_le td
  ∧ ∃ frame, nth_error (win_data filtered sel) i = Some frame
      ∧ length frame = length td
      ∧ ∀ k, (1 ≤ k ≤ length td)%nat →
          ∃ row, nth_error frame (k - 1) = Some row
            ∧ wp_win_percentage row
              = (Qc_of_Z (wins_among (firstn k td)) / Qc_of_Z (Z.of_nat k)
                 * Qc_of_Z 100)%Qc
            ∧ (0 ≤ wp_win_percentage row)%Qc
            ∧ (wp_win_percentage row ≤ Qc_of_Z 100)%Qc.
Proof.
  intros Hsel filtered td. split; [|split].
  - subst td. rewrite team_data_filter. apply sort_values_week_perm.
  - subst td. rewrite team_data_filter. apply sort_values_week_sorted.
  - exists (team_win_frame filtered tm). split; [|split].
    + unfold win_data. rewrite nth_error_map, Hsel. reflexivity.
    + apply team_win_frame_length.
    + intros k [Hk1 Hk2].
      destruct (nth_error td (k - 1)) as [r|] eqn:Hr.
      2:{ apply nth_error_None in Hr. lia. }
      pose proof (team_win_frame_nth filtered tm (k - 1) r Hr) as Hrow.
      replace (S (k - 1)) with k in Hrow by lia.
      eexists. split; [exact Hrow|]. simpl. split; [reflexivity|].
      apply percentage_bounds; [|lia].
      pose proof (wins_among_bounds (firstn k td)) as Hb.
      rewrite length_firstn in Hb. fold td. lia.
Qed.

(** ** The win matrix *)

Lemma week_matchups_filter matchups row :
  week_matchups matchups row =
  List.filter (fun r => (week r =? week row) && (matchup_id r =? matchup_id row))
              matchups.
Proof.
  unfold week_matchups. rewrite !map_map, mask_and_map.
  apply boolean_index_map.
Qed.

Lemma new_frame_over sel v : frame_over sel (new_frame sel sel v).
Proof.
  unfold frame_over, new_frame. simpl. repeat split.
  - apply repeat_length.
  - apply List.Forall_forall. intros row Hrow.
    apply repeat_spec in Hrow. subst. apply repeat_length.
Qed.

Lemma occurrences_nonneg x l : 0 ≤ occurrences x l.
Proof.
  unfold occurrences. induction l as [|y l IH]; simpl; [lia|].
  destruct (String.eqb y x); lia.
Qed.

Lemma occurrences_in x l : In x l → 1 ≤ occurrences x l.
Proof.
  unfold occurrences. induction l as [|y l IH]; simpl; [tauto|].
  intros [->|Hin].
  - rewrite String.eqb_refl. pose proof (occurrences_nonneg x l) as H.
    unfold occurrences in H. lia.
  - specialize (IH Hin). destruct (String.eqb y x); lia.
Qed.

Lemma occurrences_not_in x l : ¬ In x l → occurrences x l = 0.
Proof.
  unfold occurrences. induction l as [|y l IH]; simpl; [reflexivity|].
  intros Hn. destruct (String.eqb_spec y x) as [->|Hne]; [tauto|].
  rewrite IH; tauto.
Qed.

Lemma occurrences_NoDup x l : NoDup l → In x l → occurrences x l = 1.
Proof.
  induction 1 as [|y l Hy Hnd IH]; simpl; [tauto|].
  unfold occurrences. simpl. fold (occurrences x l).
  intros [->|Hin].
  - rewrite String.eqb_refl.
    rewrite occurrences_not_in; [lia|]. now rewrite <- list_elem_of_In.
  - destruct (String.eqb_spec y x) as [->|Hne].
    + exfalso. apply Hy. now apply list_elem_of_In.
    + rewrite IH; [lia | assumption].
Qed.

Lemma row_add_sum c d : ∀ cols row, length row = length cols →
  sum_Z (map (fun q : string * Z => if String.eqb (fst q) c then snd q + d else snd q)
             (combine cols row))
  = sum_Z row + d * occurrences c cols.
Proof.
  unfold occurrences.
  induction cols as [|y cols IH]; intros [|v row] Hlen; simpl in *;
    try discriminate; [lia|].
  rewrite IH by lia. destruct (String.eqb y c); ring.
Qed.

Lemma row_add_length c d : ∀ cols row, length row = length cols →
  length (map (fun q : string * Z => if String.eqb (fst q) c then snd q + d else snd q)
              (combine cols row)) = length row.
Proof. intros. rewrite length_map, length_combine. lia. Qed.

Lemma loc_add_Some m r c d :
  In r (index m) → In c (columns m) → ∃ m', loc_add m r c d = Some m'.
Proof.
  intros Hr Hc. unfold loc_add.
  apply in_list_In in Hr, Hc. rewrite Hr, Hc. simpl. eauto.
Qed.

Lemma loc_add_over sel m r c d m' :
  frame_over sel m → loc_add m r c d = Some m' → frame_over sel m'.
Proof.
  intros (Hi & Hc & Hlen & Hrows) H. unfold loc_add in H.
  destruct (_ && _); [|discriminate]. inversion H; subst m'; clear H.
  unfold frame_over. simpl. repeat split; try assumption.
  - rewrite length_map, length_combine, Hi. lia.
  - apply List.Forall_forall. intros row Hin.
    apply in_map_iff in Hin. destruct Hin as ([lab old] & Heq & Hin).
    apply in_combine_r in Hin. rewrite List.Forall_forall in Hrows.
    specialize (Hrows old Hin). simpl in Heq.
    destruct (String.eqb lab r); subst row; [|assumption].
    rewrite row_add_length; congruence.
Qed.

Lemma cells_add_sum r c d cols : ∀ idx cs,
  length cs = length idx →
  Forall (fun row : list Z => length row = length cols) cs →
  sum_Z (map sum_Z
           (map (fun p : string * list Z =>
                   if String.eqb (fst p) r then
                     map (fun q : string * Z =>
                            if String.eqb (fst q) c then snd q + d else snd q)
                         (combine cols (snd p))
                   else snd p)
                (combine idx cs)))
  = sum_Z (map sum_Z cs) + d * (occurrences r idx * occurrences c cols).
Proof.
  induction idx as [|lab idx IH]; intros [|row cs] Hlen Hrows; simpl in *;
    try discriminate; [unfold occurrences; simpl; ring|].
  inversion Hrows; subst.
  rewrite IH by (assumption || lia).
  unfold occurrences at 3. simpl. fold (occurrences r idx).
  destruct (String.eqb lab r); [rewrite row_add_sum by assumption|]; ring.
Qed.

Lemma loc_add_sum sel m r c d m' :
  frame_over sel m → loc_add m r c d = Some m' →
  cells_sum m' = cells_sum m + d * (occurrences r sel * occurrences c sel).
Proof.
  intros (Hi & Hc & Hlen & Hrows) H. unfold loc_add in H.
  destruct (_ && _); [|discriminate]. inversion H; subst m'; clear H.
  unfold cells_sum. simpl. rewrite Hi, Hc.
  now apply cells_add_sum.
Qed.

(** ** Resolution of a matchup group *)

Lemma spec_resolve_Some sel g a b :
  spec_resolve sel g = Some (a, b) ↔
  g = [a; b] ∧ In (manager_nickname a) sel ∧ In (manager_nickname b) sel.
Proof.
  unfold spec_resolve.
  destruct g as [|x [|y [|z g]]]; try (split; [discriminate | intros [? _]; discriminate]).
  rewrite <- !in_list_In.
  destruct (in_list (manager_nickname x) sel) eqn:Hx,
           (in_list (manager_nickname y) sel) eqn:Hy; simpl;
    (split; [intros H; inversion H; subst; rewrite ?Hx, ?Hy; auto
            | intros (H & Ha & Hb); inversion H; subst; congruence]).
Qed.

Lemma resolves_spec_resolve sel g :
  resolves sel g ↔ ∃ a b, spec_resolve sel g = Some (a, b).
Proof.
  split.
  - intros [Hlen Hin].
    destruct g as [|a [|b [|c g]]]; try discriminate.
    exists a, b. apply spec_resolve_Some. repeat split.
    + apply Hin. now left.
    + apply Hin. right. now left.
  - intros (a & b & H). apply spec_resolve_Some in H.
    destruct H as (-> & Ha & Hb). split; [reflexivity|].
    intros r [<-|[<-|[]]]; assumption.
Qed.

Lemma spec_resolve_None sel g :
  spec_resolve sel g = None ↔ ¬ resolves sel g.
Proof.
  rewrite resolves_spec_resolve. split.
  - intros H (a & b & H'). congruence.
  - intros H. destruct (spec_resolve sel g) as [[a b]|] eqn:E; [|reflexivity].
    exfalso. apply H. eauto.
Qed.

Lemma win_matrix_body_resolve matchups sel wmx row :
  win_matrix_body matchups sel wmx row =
  match spec_resolve sel (week_matchups matchups row) with
  | Some (a, b) => loc_add wmx (winner_of a b) (loser_of a b) 1
  | None => Some wmx
  end.
Proof.
  unfold win_matrix_body, spec_resolve, iloc.
  destruct (week_matchups matchups row) as [|a [|b [|c g]]]; simpl; try reflexivity.
  destruct (_ && _); reflexivity.
Qed.

Lemma h2h_body_resolve matchups sel row :
  h2h_body matchups sel row
  = Some (group_records sel (week_matchups matchups row)).
Proof.
  unfold h2h_body, group_records, spec_resolve, iloc.
  destruct (week_matchups matchups row) as [|a [|b [|c g]]]; simpl; try reflexivity.
  destruct (_ && _); reflexivity.
Qed.

Lemma winner_loser_cases a b :
  (winner_of a b = manager_nickname a ∧ loser_of a b = manager_nickname b
   ∧ points_gt (team_points a) (team_points b) = true)
  ∨ (winner_of a b = manager_nickname b ∧ loser_of a b = manager_nickname a
     ∧ points_gt (team_points a) (team_points b) = false).
Proof.
  unfold loser_of, winner_of.
  destruct (points_gt _ _).
  - left. now rewrite String.eqb_refl.
  - right. destruct (String.eqb_spec (manager_nickname b) (manager_nickname a));
      auto.
Qed.

Lemma points_gt_true a b : points_gt a b = true ↔ (b < a)%Qc.
Proof.
  unfold points_gt, Qclt, Qccompare.
  rewrite (Qlt_alt b a), <- (Qcompare_antisym a b).
  destruct (a ?= b)%Q; simpl; split; congruence.
Qed.

(** The loop never raises. *)
Lemma win_matrix_body_over matchups sel wmx row :
  frame_over sel wmx →
  ∃ wmx', win_matrix_body matchups sel wmx row = Some wmx' ∧ frame_over sel wmx'.
Proof.
  intros Hover. rewrite win_matrix_body_resolve.
  destruct (spec_resolve sel _) as [[a b]|] eqn:E; [|eauto].
  apply spec_resolve_Some in E. destruct E as (_ & Ha & Hb).
  destruct (loc_add_Some wmx (winner_of a b) (loser_of a b) 1) as [m' Hm'].
  - destruct Hover as (-> & _).
    destruct (winner_loser_cases a b) as [(-> & _)|(-> & _)]; assumption.
  - destruct Hover as (_ & -> & _).
    destruct (winner_loser_cases a b) as [(_ & -> & _)|(_ & -> & _)]; assumption.
  - exists m'. split; [assumption|]. eapply loc_add_over; eassumption.
Qed.

Lemma for_rows_total {S} (P : S → Prop) (body : S → ScoreRow → option S) rows :
  (∀ s r, In r rows → P s → ∃ s', body s r = Some s' ∧ P s') →
  ∀ s, P s → ∃ s', for_rows body rows s = Some s' ∧ P s'.
Proof.
  induction rows as [|r rows IH]; intros Hbody s Hs; simpl.
  - eauto.
  - destruct (Hbody s r) as (s1 & Hs1 & HP1); [now left | assumption |].
    rewrite Hs1. simpl. apply IH; [|assumption].
    intros s0 r0 Hin. apply Hbody. now right.
Qed.

Lemma win_matrix_total matchups sel :
  ∃ m, win_matrix matchups sel = Some m ∧ frame_over sel m.
Proof.
  unfold win_matrix.
  apply (for_rows_total (frame_over sel)).
  - intros s r _ Hs. now apply win_matrix_body_over.
  - apply new_frame_over.
Qed.

(** ** Cells of the win matrix *)

Lemma nth_error_combine {A B} (l1 : list A) (l2 : list B) i :
  nth_error (combine l1 l2) i =
  match nth_error l1 i, nth_error l2 i with
  | Some a, Some b => Some (a, b)
  | _, _ => None
  end.
Proof.
  revert l2 i. induction l1 as [|x l1 IH]; intros l2 i.
  - now destruct i.
  - destruct l2 as [|y l2]; destruct i as [|i]; simpl; try reflexivity.
    + now destruct (nth_error l1 i).
    + apply IH.
Qed.

Lemma loc_add_cell sel m r c d m' i j a b v :
  frame_over sel m → loc_add m r c d = Some m' →
  nth_error sel i = Some a → nth_error sel j = Some b →
  cell m' i j = Some v →
  ∃ v0, cell m i j = Some v0
        ∧ v = if String.eqb a r && String.eqb b c then v0 + d else v0.
Proof.
  intros (Hi & Hc & Hlen & Hrows) H Ha Hb Hv. unfold loc_add in H.
  destruct (_ && _); [|discriminate]. inversion H; subst m'; clear H.
  unfold cell in *. simpl in Hv.
  rewrite nth_error_map, nth_error_combine, Hi, Ha in Hv.
  destruct (nth_error (cells m) i) as [old|] eqn:Hold; [|discriminate].
  simpl in Hv |- *.
  destruct (String.eqb a r); simpl.
  - rewrite nth_error_map, nth_error_combine, Hc, Hb in Hv.
    destruct (nth_error old j) as [v0|]; [|discriminate].
    simpl in Hv. exists v0. split; [reflexivity|].
    destruct (String.eqb b c); congruence.
  - eauto.
Qed.

Lemma new_frame_cell sel i j v :
  cell (new_frame sel sel 0) i j = Some v → v = 0.
Proof.
  unfold cell, new_frame. simpl. intros H.
  destruct (nth_error (repeat _ _) i) as [row|] eqn:Hrow; [|discriminate].
  apply nth_error_In, repeat_spec in Hrow. subst row. simpl in H.
  now apply nth_error_In, repeat_spec in H.
Qed.

Lemma for_rows_invariant {S} (P : S → Prop) (body : S → ScoreRow → option S) rows :
  (∀ s r s', In r rows → P s → body s r = Some s' → P s') →
  ∀ s s', P s → for_rows body rows s = Some s' → P s'.
Proof.
  induction rows as [|r rows IH]; intros Hbody s s' Hs Hrun; simpl in Hrun.
  - congruence.
  - destruct (body s r) as [s1|] eqn:Hs1; [|discriminate]. simpl in Hrun.
    apply (IH (fun s0 r0 s0' Hin => Hbody s0 r0 s0' (or_intror Hin)) s1 s');
      [|assumption].
    eapply Hbody; [now left | eassumption | eassumption].
Qed.

(** C7: when the two participants of every resolved matchup are distinct
    entities, the win matrix is computed, is a full square frame labelled
    by the selection on both axes, has zero on its diagonal and a
    non-negative count in every cell. *)
Theorem win_matrix_zero_diagonal (matchups : Table) (sel : list string) :
  (∀ row a b, In row matchups → week_matchups matchups row = [a; b] →
              In (manager_nickname a) sel → In (manager_nickname b) sel →
              manager_nickname a ≠ manager_nickname b) →
  ∃ m, win_matrix matchups sel = Some m
       ∧ frame_over sel m
       ∧ ∀ i j a b v,
           nth_error (index m) i = Some a → nth_error (columns m) j = Some b →
           cell m i j = Some v → (a = b → v = 0) ∧ 0 ≤ v.
Proof.
  intros Hdistinct.
  destruct (win_matrix_total matchups sel) as (m & Hm & Hover).
  exists m. split; [assumption|]. split; [assumption|].
  destruct (Hover) as (Hi & Hc & _).
  rewrite Hi, Hc.
  assert (Hinv : frame_over sel m ∧ counts_off_diagonal sel m);
    [|exact (proj2 Hinv)].
  unfold win_matrix in Hm.
  revert Hm.
  apply (for_rows_invariant
           (fun s => frame_over sel s ∧ counts_off_diagonal sel s)).
  - intros s r s' Hin [Hs Hcnt] Hbody.
    rewrite win_matrix_body_resolve in Hbody.
    destruct (spec_resolve sel _) as [[a b]|] eqn:E.
    2:{ inversion Hbody; subst. now split. }
    apply spec_resolve_Some in E. destruct E as (Hg & Ha & Hb).
    specialize (Hdistinct r a b Hin Hg Ha Hb).
    split; [eapply loc_add_over; eassumption|].
    intros i j x y v Hx Hy Hv.
    destruct (loc_add_cell _ _ _ _ _ _ _ _ _ _ _ Hs Hbody Hx Hy Hv)
      as (v0 & Hv0 & ->).
    destruct (Hcnt i j x y v0 Hx Hy Hv0) as [Hdiag Hpos].
    destruct (String.eqb_spec x (winner_of a b)) as [->|];
      destruct (String.eqb_spec y (loser_of a b)) as [->|]; simpl;
      try (split; [assumption | lia]).
    split; [|lia]. intros Heq. exfalso.
    destruct (winner_loser_cases a b) as [(Hw & Hl & _)|(Hw & Hl & _)];
      rewrite Hw, Hl in Heq; congruence.
  - split; [apply new_frame_over|].
    intros i j a b v _ _ Hv. apply new_frame_cell in Hv. subst. split; [auto|lia].
Qed.

(** The groups of the loops are taken in the filtered scoreboard: a group
    of three rows in the source resolves once the filter has dropped the
    row of an unselected entity. *)
Remark three_row_group_resolves_after_filter :
  length (week_matchups three_row_scoreboard row_A1) = 3%nat
  ∧ week_matchups (filtered_scoreboard three_row_scoreboard ["A"; "B"]%string (1, 1))
                  row_A1
    = [row_A1; row_B1].
Proof. split; reflexivity. Qed.

(** ** Every group is visited once per row *)

Lemma copies_nil {X} n : copies n (@nil X) = [].
Proof. unfold copies. induction n; simpl; auto. Qed.

Lemma copies_S {X} n (l : list X) : copies (S n) l = l ++ copies n l.
Proof. reflexivity. Qed.

Section Visits.
Context {K X : Type} `{EqDecision K}.
Variable F : K → list X.

Lemma key_count_cons (a k : K) ks :
  key_count k (a :: ks)
  = ((if bool_decide (a = k) then 1 else 0) + key_count k ks)%nat.
Proof.
  unfold key_count. simpl. destruct (bool_decide (a = k)); reflexivity.
Qed.

Lemma key_count_not_in (k : K) ks : k ∉ ks → key_count k ks = 0%nat.
Proof.
  unfold key_count. induction ks as [|x ks IH]; intros Hn; simpl; [reflexivity|].
  apply not_elem_of_cons in Hn. destruct Hn as [Hne Hn].
  rewrite bool_decide_eq_false_2 by congruence. auto.
Qed.

Lemma visits_extra (a : K) (c : K → nat) D :
  NoDup D →
  flat_map (fun k => copies ((if bool_decide (a = k) then 1 else 0) + c k) (F k)) D
  ≡ₚ (if bool_decide (a ∈ D) then F a else [])
      ++ flat_map (fun k => copies (c k) (F k)) D.
Proof.
  induction 1 as [|k D Hk Hnd IH]; simpl; [reflexivity|].
  rewrite IH. clear IH.
  destruct (decide (a = k)) as [->|Hne].
  - rewrite (bool_decide_eq_true_2 (k = k)) by reflexivity.
    rewrite (bool_decide_eq_true_2 (k ∈ k :: D)) by left.
    rewrite (bool_decide_eq_false_2 (k ∈ D)) by assumption.
    simpl. rewrite copies_S, <- app_assoc. reflexivity.
  - rewrite (bool_decide_eq_false_2 (a = k)) by assumption. simpl.
    destruct (decide (a ∈ D)) as [Hin|Hnin].
    + rewrite (bool_decide_eq_true_2 (a ∈ D)) by assumption.
      rewrite (bool_decide_eq_true_2 (a ∈ k :: D)) by now right.
      rewrite !app_assoc. apply Permutation_app_tail, Permutation_app_comm.
    + rewrite (bool_decide_eq_false_2 (a ∈ D)) by assumption.
      rewrite (bool_decide_eq_false_2 (a ∈ k :: D)); [reflexivity|].
      intros Hin. apply elem_of_cons in Hin. tauto.
Qed.

Lemma visits_by_key (ks : list K) :
  flat_map F ks
  ≡ₚ flat_map (fun k => copies (key_count k ks) (F k)) (remove_dups ks).
Proof.
  induction ks as [|a ks IH]; [reflexivity|].
  change (flat_map F (a :: ks)) with (F a ++ flat_map F ks).
  rewrite IH. clear IH.
  assert (Hext : ∀ D,
    flat_map (fun k => copies (key_count k (a :: ks)) (F k)) D
    = flat_map (fun k => copies ((if bool_decide (a = k) then 1 else 0)
                                 + key_count k ks) (F k)) D).
  { intros D. apply flat_map_ext. intros k. now rewrite key_count_cons. }
  simpl remove_dups. destruct (decide_rel elem_of a ks) as [Hin|Hnin].
  - rewrite Hext, visits_extra by apply NoDup_remove_dups.
    rewrite bool_decide_eq_true_2 by now apply elem_of_remove_dups.
    reflexivity.
  - change (flat_map ?f (a :: ?D)) with (f a ++ flat_map f D).
    rewrite Hext, visits_extra by apply NoDup_remove_dups.
    rewrite (bool_decide_eq_false_2 (a ∈ remove_dups ks))
      by now rewrite elem_of_remove_dups.
    rewrite key_count_cons, key_count_not_in by assumption.
    rewrite bool_decide_eq_true_2 by reflexivity.
    simpl. rewrite copies_S. simpl. now rewrite app_nil_r.
Qed.
End Visits.

Lemma week_matchups_group t row :
  week_matchups t row = spec_group t (matchup_key row).
Proof.
  rewrite week_matchups_filter. unfold spec_group. apply filter_ext.
  intros r. unfold matchup_key.
  destruct (Z.eqb_spec (week r) (week row)), (Z.eqb_spec (matchup_id r) (matchup_id row));
    simpl; symmetry;
    (apply bool_decide_eq_true_2; congruence)
    || (apply bool_decide_eq_false_2; congruence).
Qed.

Lemma spec_group_length t k :
  length (spec_group t k) = key_count k (map matchup_key t).
Proof.
  unfold spec_group, key_count.
  induction t as [|r t IH]; simpl; [reflexivity|].
  destruct (bool_decide (matchup_key r = k)); simpl; now rewrite IH.
Qed.

Lemma flat_map_map {A B C} (f : A → B) (g : B → list C) l :
  flat_map g (map f l) = flat_map (fun x => g (f x)) l.
Proof. induction l as [|x l IH]; simpl; [reflexivity | now rewrite IH]. Qed.

(** A contribution that only two-row groups make is made twice: once for
    each row of the group. *)
Lemma rows_visit_groups_twice {X} (E : Table → list X) (t : Table) :
  (∀ g, E g ≠ [] → length g = 2%nat) →
  flat_map (fun row => E (week_matchups t row)) t
  ≡ₚ flat_map (fun g => E g ++ E g) (spec_groups t).
Proof.
  intros Htwo.
  rewrite (flat_map_ext _ (fun row => E (spec_group t (matchup_key row))))
    by (intros row; now rewrite week_matchups_group).
  rewrite <- (flat_map_map matchup_key (fun k => E (spec_group t k))).
  rewrite visits_by_key. unfold spec_groups. rewrite flat_map_map.
  apply Permutation_refl'. apply flat_map_ext. intros k.
  destruct (E (spec_group t k)) as [|x l] eqn:HE.
  - apply copies_nil.
  - rewrite <- spec_group_length, (Htwo (spec_group t k)) by congruence.
    unfold copies. simpl. now rewrite app_nil_r.
Qed.

(** ** The sum of the win matrix *)

Lemma win_matrix_loop_sum matchups sel : NoDup sel → ∀ rows s s',
  frame_over sel s →
  for_rows (win_matrix_body matchups sel) rows s = Some s' →
  cells_sum s' = cells_sum s
    + Z.of_nat (length (flat_map (fun row => group_mark sel (week_matchups matchups row))
                                 rows)).
Proof.
  intros Hnd. induction rows as [|row rows IH]; intros s s' Hover Hrun;
    simpl in Hrun.
  - inversion Hrun. simpl. lia.
  - destruct (win_matrix_body matchups sel s row) as [s1|] eqn:Hbody;
      [|discriminate].
    simpl in Hrun.
    destruct (win_matrix_body_over matchups sel s row Hover) as (s1' & Hs1 & Hover1).
    rewrite Hbody in Hs1. inversion Hs1; subst s1'; clear Hs1.
    rewrite (IH s1 s' Hover1 Hrun). simpl flat_map. rewrite length_app.
    rewrite win_matrix_body_resolve in Hbody. unfold group_mark.
    destruct (spec_resolve sel _) as [[a b]|] eqn:E.
    + apply spec_resolve_Some in E. destruct E as (_ & Ha & Hb).
      rewrite (loc_add_sum _ _ _ _ _ _ Hover Hbody).
      assert (Hw : In (winner_of a b) sel ∧ In (loser_of a b) sel).
      { destruct (winner_loser_cases a b) as [(-> & -> & _)|(-> & -> & _)]; auto. }
      rewrite !occurrences_NoDup by (apply Hnd || apply Hw). simpl. lia.
    + inversion Hbody; subst. simpl. lia.
Qed.

Lemma group_mark_two sel g : group_mark sel g ≠ [] → length g = 2%nat.
Proof.
  unfold group_mark. destruct (spec_resolve sel g) as [[a b]|] eqn:E; [|congruence].
  apply spec_resolve_Some in E. now destruct E as (-> & _).
Qed.

Lemma marks_count_pairs sel (groups : list Table) :
  length (flat_map (fun g => group_mark sel g ++ group_mark sel g) groups)
  = (2 * length (omap (spec_resolve sel) groups))%nat.
Proof.
  induction groups as [|g groups IH]; [reflexivity|].
  change (flat_map ?f (g :: groups)) with (f g ++ flat_map f groups).
  rewrite !length_app, IH. unfold group_mark. cbn [omap list_omap].
  destruct (spec_resolve sel g); cbn [length]; lia.
Qed.

Lemma new_frame_sum idx cols : cells_sum (new_frame idx cols 0) = 0.
Proof.
  unfold cells_sum, new_frame. simpl.
  assert (Hrow : sum_Z (repeat 0 (length cols)) = 0).
  { induction (length cols) as [|k IHk]; simpl; lia. }
  induction (length idx) as [|n IHn]; simpl; [reflexivity|].
  rewrite IHn, Hrow. reflexivity.
Qed.

(** X6: with distinct labels, the sum of all cells is twice the number of
    resolved matchups: each resolved pair is counted once for each of its
    two rows. *)
Lemma win_matrix_sum_twice_resolved (matchups : Table) (sel : list string) :
  NoDup sel →
  ∃ m, win_matrix matchups sel = Some m
       ∧ cells_sum m = 2 * Z.of_nat (length (spec_resolved_pairs matchups sel)).
Proof.
  intros Hnd. destruct (win_matrix_total matchups sel) as (m & Hm & _).
  exists m. split; [assumption|].
  unfold win_matrix in Hm.
  rewrite (win_matrix_loop_sum matchups sel Hnd _ _ _ (new_frame_over sel 0) Hm).
  rewrite (Permutation_length
             (rows_visit_groups_twice (group_mark sel) matchups (group_mark_two sel))).
  rewrite marks_count_pairs. unfold spec_resolved_pairs.
  rewrite new_frame_sum. lia.
Qed.

(** C1 at the fixed input of the specification's example: the selection has
    two resolved matchups, yet the cells for A over B and for C over A hold
    2 each and the cells sum to 4, because the loop visits every resolved
    pair once per row. *)
Theorem win_matrix_example_counts_twice :
  length (spec_resolved_pairs example_matchups example_selection) = 2%nat
  ∧ win_matrix example_matchups example_selection
    = Some (mkWinFrame example_selection example_selection
              [[0; 2; 0]; [0; 0; 0]; [2; 0; 0]])
  ∧ (win_matrix example_matchups example_selection
     ≫= fun m => loc m "A" "B") = Some 2
  ∧ (win_matrix example_matchups example_selection
     ≫= fun m => loc m "C" "A") = Some 2
  ∧ (cells_sum <$> win_matrix example_matchups example_selection) = Some 4.
Proof. repeat split; vm_compute; reflexivity. Qed.

(** The second half of the example: A's cumulative win percentages are 100
    and 50, B's is 0 and C's is 100. *)
Example win_data_example :
  map (map (fun r => Qcanon.this (wp_win_percentage r)))
      (win_data example_matchups example_selection)
  = [[100 # 1; 50 # 1]; [0 # 1]; [100 # 1]]%Q.
Proof. vm_compute. reflexivity. Qed.

(** ** Head-to-head averages *)

Lemma h2h_loop matchups sel : ∀ rows acc,
  for_rows (fun acc row => new ← h2h_body matchups sel row; Some (acc ++ new))
           rows acc
  = Some (acc ++ flat_map (fun row => group_records sel (week_matchups matchups row))
                          rows).
Proof.
  induction rows as [|row rows IH]; intros acc; simpl.
  - now rewrite app_nil_r.
  - rewrite h2h_body_resolve. simpl. rewrite IH, <- app_assoc. reflexivity.
Qed.

Lemma h2h_points_rows matchups sel :
  h2h_points matchups sel
  = Some (flat_map (fun row => group_records sel (week_matchups matchups row))
                   matchups).
Proof. unfold h2h_points. now rewrite h2h_loop. Qed.

Lemma spec_directed_records_groups t sel :
  spec_directed_records t sel = flat_map (group_records sel) (spec_groups t).
Proof.
  unfold spec_directed_records, spec_resolved_pairs.
  induction (spec_groups t) as [|g groups IH]; [reflexivity|].
  cbn [omap list_omap flat_map]. unfold group_records at 1.
  destruct (spec_resolve sel g); cbn [flat_map]; now rewrite IH.
Qed.

Lemma group_records_two sel g : group_records sel g ≠ [] → length g = 2%nat.
Proof.
  unfold group_records. destruct (spec_resolve sel g) as [[a b]|] eqn:E; [|congruence].
  apply spec_resolve_Some in E. now destruct E as (-> & _).
Qed.

Lemma h2h_points_twice_spec matchups sel :
  ∃ recs, h2h_points matchups sel = Some recs
          ∧ recs ≡ₚ flat_map (fun g => group_records sel g ++ group_records sel g)
                             (spec_groups matchups).
Proof.
  eexists. split; [apply h2h_points_rows|].
  apply rows_visit_groups_twice, group_records_two.
Qed.


Lemma group_points_perm l1 l2 k :
  l1 ≡ₚ l2 → group_points l1 k ≡ₚ group_points l2 k.
Proof.
  intros H. unfold group_points. apply Permutation_map.
  induction H; simpl.
  - reflexivity.
  - destruct (key_eqb _ _); [now constructor | assumption].
  - destruct (key_eqb (h2h_key x) k), (key_eqb (h2h_key y) k);
      try reflexivity. apply Permutation_swap.
  - etransitivity; eassumption.
Qed.




(** The keys of the grouped table are the keys of the records. *)
Lemma key_compare_eq a b : key_compare a b = Eq → a = b.
Proof.
  destruct a as [a1 a2], b as [b1 b2]. unfold key_compare. simpl.
  destruct (String.compare a1 b1) eqn:E1; try discriminate.
  intros E2. apply String.compare_eq_iff in E1, E2. congruence.
Qed.

Lemma insert_key_In k x l : In x (insert_key k l) ↔ x = k ∨ In x l.
Proof.
  induction l as [|y l IH]; simpl.
  - intuition.
  - destruct (key_compare k y) eqn:E; simpl.
    + apply key_compare_eq in E. subst. intuition.
    + intuition.
    + rewrite IH. intuition.
Qed.


Lemma key_eqb_eq a b : key_eqb a b = true ↔ a = b.
Proof.
  destruct a, b. unfold key_eqb. simpl.
  rewrite andb_true_iff, !String.eqb_eq. split; [intros []|intros [=]]; now subst.
Qed.






(** ** Single cells *)

Lemma position_Some x l :
  In x l → ∃ i, position x l = Some i ∧ nth_error l i = Some x.
Proof.
  induction l as [|y l IH]; simpl; [tauto|].
  destruct (String.eqb_spec y x) as [->|Hne].
  - intros _. exists 0%nat. split; reflexivity.
  - intros [H|H]; [contradiction|]. destruct (IH H) as (i & Hi & Hn).
    exists (S i). rewrite Hi. split; [reflexivity | assumption].
Qed.

Lemma cell_Some sel m i j :
  frame_over sel m → (i < length sel)%nat → (j < length sel)%nat →
  ∃ v, cell m i j = Some v.
Proof.
  intros (_ & _ & Hlen & Hrows) Hi Hj. unfold cell.
  destruct (nth_error (cells m) i) as [row|] eqn:Hrow.
  - simpl. apply nth_error_In in Hrow as Hin.
    rewrite List.Forall_forall in Hrows. specialize (Hrows row Hin).
    destruct (nth_error row j) as [v|] eqn:Hv; [eauto|].
    apply nth_error_None in Hv. lia.
  - apply nth_error_None in Hrow. lia.
Qed.

Lemma loc_Some sel m a b :
  frame_over sel m → In a sel → In b sel → ∃ v, loc m a b = Some v.
Proof.
  intros Hover Ha Hb. unfold loc. destruct (Hover) as (Hi & Hc & _).
  rewrite Hi, Hc.
  destruct (position_Some a sel Ha) as (i & -> & Hni).
  destruct (position_Some b sel Hb) as (j & -> & Hnj). simpl.
  apply (cell_Some sel); [assumption | |]; apply nth_error_Some; congruence.
Qed.

Lemma loc_add_loc sel m r c d m' a b v :
  frame_over sel m → In a sel → In b sel →
  loc_add m r c d = Some m' → loc m a b = Some v →
  loc m' a b
  = Some (if String.eqb a r && String.eqb b c then v + d else v).
Proof.
  intros Hover Ha Hb Hadd Hv.
  pose proof (loc_add_over _ _ _ _ _ _ Hover Hadd) as Hover'.
  destruct (loc_Some sel m' a b Hover' Ha Hb) as (v' & Hv').
  rewrite Hv'. f_equal.
  unfold loc in Hv, Hv'.
  destruct Hover as (Hi & Hc & Hrest). destruct Hover' as (Hi' & Hc' & _).
  rewrite Hi, Hc in Hv. rewrite Hi', Hc' in Hv'.
  destruct (position_Some a sel Ha) as (i & Hpi & Hni).
  destruct (position_Some b sel Hb) as (j & Hpj & Hnj).
  rewrite Hpi, Hpj in Hv, Hv'. simpl in Hv, Hv'.
  destruct (loc_add_cell sel m r c d m' i j a b v'
              (conj Hi (conj Hc Hrest)) Hadd Hni Hnj Hv') as (v0 & Hv0 & ->).
  rewrite Hv in Hv0. now inversion Hv0.
Qed.

Lemma win_matrix_loop_cell matchups sel a b :
  In a sel → In b sel → ∀ rows s s' v,
  frame_over sel s → loc s a b = Some v →
  for_rows (win_matrix_body matchups sel) rows s = Some s' →
  loc s' a b
  = Some (v + Z.of_nat (length (flat_map
                                  (fun row => win_mark sel a b (week_matchups matchups row))
                                  rows))).
Proof.
  intros Ha Hb. induction rows as [|row rows IH]; intros s s' v Hover Hv Hrun;
    simpl in Hrun.
  - inversion Hrun; subst. simpl. rewrite Hv. f_equal. lia.
  - destruct (win_matrix_body matchups sel s row) as [s1|] eqn:Hbody;
      [|discriminate].
    simpl in Hrun.
    destruct (win_matrix_body_over matchups sel s row Hover) as (s1' & Hs1 & Hover1).
    rewrite Hbody in Hs1. inversion Hs1; subst s1'; clear Hs1.
    cbn [flat_map]. rewrite length_app, Nat2Z.inj_add.
    rewrite win_matrix_body_resolve in Hbody. unfold win_mark at 1.
    destruct (spec_resolve sel _) as [[x y]|] eqn:E.
    + rewrite (IH s1 s' _ Hover1
                 (loc_add_loc _ _ _ _ _ _ _ _ _ Hover Ha Hb Hbody Hv) Hrun).
      f_equal. unfold won_by. simpl fst. simpl snd.
      rewrite (String.eqb_sym a), (String.eqb_sym b).
      destruct (_ && _); simpl length; lia.
    + inversion Hbody; subst s1.
      rewrite (IH s s' v Hover Hv Hrun). f_equal; simpl length; lia.
Qed.

Lemma filter_filter_and {A} (p q : A → bool) (l : list A) :
  List.filter q (List.filter p l) = List.filter (fun x => p x && q x) l.
Proof.
  induction l as [|x l IH]; simpl; [reflexivity|].
  destruct (p x); simpl; [destruct (q x)|]; now rewrite IH.
Qed.

Lemma filter_none {A} (p : A → bool) (l : list A) :
  (∀ x, In x l → p x = false) → List.filter p l = [].
Proof.
  induction l as [|x l IH]; intros H; simpl; [reflexivity|].
  rewrite (H x) by now left. apply IH. intros y Hy. apply H. now right.
Qed.

(** ** What the loops record, group by group *)

Lemma pair_win_won_by a b x y : won_by a b (x, y) = pair_win a b x y.
Proof.
  unfold won_by, pair_win. simpl.
  destruct (winner_loser_cases x y) as [(-> & -> & Hgt)|(-> & -> & Hgt)].
  - apply points_gt_true in Hgt.
    destruct (Qclt_le_dec _ _) as [_|Hle]; [reflexivity|].
    exfalso. now apply (Qcle_not_lt _ _ Hle).
  - destruct (Qclt_le_dec _ _) as [Hlt|_]; [|reflexivity].
    apply points_gt_true in Hlt. congruence.
Qed.

Lemma win_mark_records sel a b g :
  win_mark sel a b g = if records_win sel a b g then [tt] else [].
Proof.
  unfold win_mark, records_win, spec_resolve.
  destruct g as [|x [|y [|z g]]]; try reflexivity.
  destruct (in_list (manager_nickname x) sel && in_list (manager_nickname y) sel);
    [|reflexivity].
  now rewrite pair_win_won_by.
Qed.

Lemma length_flat_map_marks {X} (p : X → bool) (l : list X) :
  length (flat_map (fun x => if p x then [tt] else []) l)
  = length (List.filter p l).
Proof.
  induction l as [|x l IH]; [reflexivity|].
  cbn [flat_map List.filter]. rewrite length_app, IH.
  destruct (p x); reflexivity.
Qed.

(** The cell for [a] over [b] counts the rows whose group records a win
    of [a] over [b]. *)
Lemma win_matrix_cell_rows matchups sel a b :
  In a sel → In b sel →
  ∃ m, win_matrix matchups sel = Some m ∧ frame_over sel m
       ∧ loc m a b
         = Some (Z.of_nat (length (List.filter
                    (fun row => records_win sel a b
                                  (spec_group matchups (matchup_key row)))
                    matchups))).
Proof.
  intros Ha Hb. destruct (win_matrix_total matchups sel) as (m & Hm & Hover).
  exists m. split; [assumption|]. split; [assumption|]. unfold win_matrix in Hm.
  destruct (loc_Some sel _ a b (new_frame_over sel 0) Ha Hb) as (v0 & Hv0).
  assert (v0 = 0).
  { unfold loc in Hv0. simpl in Hv0.
    destruct (position a sel); [|discriminate].
    destruct (position b sel); [|discriminate].
    simpl in Hv0. now apply new_frame_cell in Hv0. }
  subst v0.
  rewrite (win_matrix_loop_cell matchups sel a b Ha Hb _ _ _ _
             (new_frame_over sel 0) Hv0 Hm).
  rewrite (flat_map_ext _ (fun row => if records_win sel a b
                                          (spec_group matchups (matchup_key row))
                                      then [tt] else []))
    by (intros row; now rewrite win_mark_records, week_matchups_group).
  now rewrite length_flat_map_marks.
Qed.

(** Groups of the filtered scoreboard. *)
Lemma filtered_group_filter df sel lo hi row :
  week_matchups (filtered_scoreboard df sel (lo, hi)) row
  = if (lo <=? week row) && (week row <=? hi)
    then List.filter (fun r => in_list (manager_nickname r) sel)
                     (week_matchups df row)
    else [].
Proof.
  rewrite !week_matchups_filter, filtered_scoreboard_filter.
  rewrite filter_filter_and.
  destruct ((lo <=? week row) && (week row <=? hi)) eqn:Hrange.
  - rewrite filter_filter_and. apply filter_ext. intros r.
    unfold selects, in_list. simpl.
    destruct (Z.eqb_spec (week r) (week row)) as [->|]; simpl.
    + rewrite Hrange. simpl.
      destruct (existsb _ sel), (matchup_id r =? matchup_id row); reflexivity.
    + now rewrite andb_false_r.
  - apply filter_none. intros r _. unfold selects. simpl.
    destruct (Z.eqb_spec (week r) (week row)) as [->|]; simpl.
    + rewrite Hrange. now rewrite andb_false_r.
    + now rewrite andb_false_r.
Qed.

Lemma filtered_group_selected df sel range k r :
  In r (spec_group (filtered_scoreboard df sel range) k) →
  in_list (manager_nickname r) sel = true.
Proof.
  unfold spec_group. rewrite filtered_scoreboard_filter.
  intros H. apply filter_In in H as [H _]. apply filter_In in H as [_ H].
  apply selects_true in H. now apply in_list_In.
Qed.

Lemma selected_group_win sel a b g :
  (∀ r, In r g → in_list (manager_nickname r) sel = true) →
  records_win sel a b g = two_rows_win a b g.
Proof.
  intros H. unfold records_win, two_rows_win.
  destruct g as [|x [|y [|z g]]]; try reflexivity.
  rewrite (H x), (H y) by (simpl; auto). reflexivity.
Qed.

Lemma selected_group_records sel g :
  (∀ r, In r g → in_list (manager_nickname r) sel = true) →
  group_records sel g = two_rows_records g.
Proof.
  intros H. unfold group_records, spec_resolve, two_rows_records.
  destruct g as [|x [|y [|z g]]]; try reflexivity.
  rewrite (H x), (H y) by (simpl; auto). reflexivity.
Qed.

Lemma flat_map_nil {X Y} (F : X → list Y) (l : list X) :
  flat_map F l = [] ↔ ∀ x, In x l → F x = [].
Proof.
  induction l as [|x l IH]; simpl.
  - tauto.
  - split.
    + intros H. apply app_eq_nil in H as [Hx Hl]. intros y [<-|Hy]; [assumption|].
      now apply IH.
    + intros H. rewrite (H x) by now left. apply IH. intros y Hy. apply H. now right.
Qed.

Lemma two_rows_records_nil g : two_rows_records g = [] ↔ length g ≠ 2%nat.
Proof.
  unfold two_rows_records. destruct g as [|x [|y [|z g]]]; simpl;
    split; try discriminate; try congruence; try lia.
Qed.

(** C4 as stated fails: the groups are those of the filtered scoreboard.
    The group of period 1 and matchup 1 has three rows in the scoreboard,
    one of them of the unselected D; it is not skipped: the loops count the
    win of A over B (twice) and append its records. *)
Lemma three_row_group_contributes :
  length (spec_group three_row_scoreboard (matchup_key row_A1)) = 3%nat
  ∧ ∃ m, win_matrix (filtered_scoreboard three_row_scoreboard ["A"; "B"]%string (1, 1))
                    ["A"; "B"]%string = Some m
         ∧ loc m "A" "B" = Some 2
         ∧ (length <$> h2h_points
                         (filtered_scoreboard three_row_scoreboard ["A"; "B"]%string (1, 1))
                         ["A"; "B"]%string) = Some 4%nat.
Proof.
  split; [reflexivity|]. eexists. split; [vm_compute; reflexivity|].
  split; reflexivity.
Qed.

(** C4, amended: the head-to-head loops take the group of a row in the
    filtered scoreboard, that is, for a period in range, the rows of the
    (period, matchup) group that are of selected entities.  Such a group
    contributes exactly when it has two rows: the cell for [a] over [b]
    counts the rows whose group has two rows that record a win of [a] over
    [b], the records are the two directed records of each row's group of
    two rows, and any other group adds nothing.  Neither loop raises, and
    the averages are left out exactly when no group has two rows. *)
Theorem filtered_group_of_two_contributes
    (group_mean : list Qc → Qc) (df : Table) (sel : list string) (lo hi : Z) :
  let matchups := filtered_scoreboard df sel (lo, hi) in
  (∀ row, week_matchups matchups row
          = if (lo <=? week row) && (week row <=? hi)
            then List.filter (fun r => in_list (manager_nickname r) sel)
                             (spec_group df (matchup_key row))
            else [])
  ∧ (∀ a b, In a sel → In b sel →
       ∃ m, win_matrix matchups sel = Some m
            ∧ loc m a b
              = Some (Z.of_nat (length (List.filter
                         (fun row => two_rows_win a b
                                       (spec_group matchups (matchup_key row)))
                         matchups))))
  ∧ h2h_points matchups sel
    = Some (flat_map (fun row => two_rows_records
                                   (spec_group matchups (matchup_key row)))
                     matchups)
  ∧ ∃ avg, avg_h2h group_mean matchups sel = Some avg
           ∧ (avg = None
              ↔ ∀ row, In row matchups →
                       length (spec_group matchups (matchup_key row)) ≠ 2%nat).
Proof.
  intros matchups.
  assert (Hrecs : h2h_points matchups sel
                  = Some (flat_map (fun row => two_rows_records
                                      (spec_group matchups (matchup_key row)))
                                   matchups)).
  { rewrite h2h_points_rows. f_equal. apply flat_map_ext. intros row.
    rewrite week_matchups_group. apply selected_group_records.
    intros r. apply filtered_group_selected. }
  split; [|split; [|split]].
  - intros row. unfold matchups. rewrite filtered_group_filter.
    now rewrite week_matchups_group.
  - intros a b Ha Hb.
    destruct (win_matrix_cell_rows matchups sel a b Ha Hb) as (m & Hm & _ & Hloc).
    exists m. split; [assumption|]. rewrite Hloc. do 3 f_equal.
    apply filter_ext. intros row. apply selected_group_win.
    intros r. apply filtered_group_selected.
  - exact Hrecs.
  - unfold avg_h2h. rewrite Hrecs. simpl. eexists. split; [reflexivity|].
    set (F := fun row => two_rows_records (spec_group matchups (matchup_key row))).
    assert (Hnil : flat_map F matchups = []
                   ↔ ∀ row, In row matchups →
                            length (spec_group matchups (matchup_key row)) ≠ 2%nat).
    { rewrite flat_map_nil. split; intros H row Hrow;
        apply two_rows_records_nil; now apply H. }
    rewrite <- Hnil. destruct (flat_map F matchups); split; congruence.
Qed.

(** C6: in a group of two rows of selected entities, the win goes to the
    row with strictly greater points, and to the second row when the
    points are equal: the body of the loop adds 1 to the cell for the first
    row's entity over the second's when the first row has strictly greater
    points, and to the cell for the second row's entity over the first's
    otherwise, and leaves every other cell as it is; so every cell of the
    final matrix counts the rows whose group records such a win. *)
Theorem winner_strictly_greater_tie_second
    (matchups : Table) (sel : list string) :
  (∀ (wmx : WinFrame) (row team1 team2 : ScoreRow) (a b : string),
     frame_over sel wmx →
     week_matchups matchups row = [team1; team2] →
     In (manager_nickname team1) sel → In (manager_nickname team2) sel →
     In a sel → In b sel →
     ∃ v wmx',
       loc wmx a b = Some v
       ∧ win_matrix_body matchups sel wmx row = Some wmx'
       ∧ frame_over sel wmx'
       ∧ ((team_points team2 < team_points team1)%Qc →
          loc wmx' a b
          = Some (if String.eqb a (manager_nickname team1)
                     && String.eqb b (manager_nickname team2)
                  then v + 1 else v))
       ∧ ((team_points team1 < team_points team2)%Qc
          ∨ team_points team1 = team_points team2 →
          loc wmx' a b
          = Some (if String.eqb a (manager_nickname team2)
                     && String.eqb b (manager_nickname team1)
                  then v + 1 else v)))
  ∧ (∀ a b, In a sel → In b sel →
       ∃ m, win_matrix matchups sel = Some m
            ∧ loc m a b
              = Some (Z.of_nat (length (List.filter
                         (fun row => records_win sel a b
                                       (spec_group matchups (matchup_key row)))
                         matchups)))).
Proof.
  split.
  - intros wmx row team1 team2 a b Hover Hgroup H1 H2 Ha Hb.
    destruct (loc_Some sel wmx a b Hover Ha Hb) as (v & Hv).
    destruct (win_matrix_body_over matchups sel wmx row Hover) as (wmx' & Hbody & Hover').
    exists v, wmx'. split; [assumption|]. split; [assumption|]. split; [assumption|].
    rewrite win_matrix_body_resolve in Hbody.
    assert (Hres : spec_resolve sel (week_matchups matchups row) = Some (team1, team2))
      by (apply spec_resolve_Some; auto).
    rewrite Hres in Hbody.
    pose proof (loc_add_loc _ _ _ _ _ _ a b v Hover Ha Hb Hbody Hv) as Hloc.
    destruct (winner_loser_cases team1 team2) as [(Hw & Hl & Hgt)|(Hw & Hl & Hgt)];
      rewrite Hw, Hl in Hloc.
    + apply points_gt_true in Hgt. split; [intros _; exact Hloc|].
      intros [Hlt| Heq]; exfalso.
      * exact (Qclt_not_le _ _ Hgt (Qclt_le_weak _ _ Hlt)).
      * rewrite Heq in Hgt. exact (Qclt_not_le _ _ Hgt (Qcle_refl _)).
    + split; [|intros _; exact Hloc].
      intros Hlt. apply points_gt_true in Hlt. congruence.
  - intros a b Ha Hb.
    destruct (win_matrix_cell_rows matchups sel a b Ha Hb) as (m & Hm & _ & Hloc).
    eauto.
Qed.
(** ** Loading *)

(** C10 as stated fails: a roster file that exists and is empty makes
    [pd.read_csv] fail with an error that is not caught, so [load_data]
    returns no pair at all. *)
Lemma load_data_unreadable_raises :
  rosters_file disk_with_empty_rosters = Unreadable "No columns to parse from file"
  ∧ load_data disk_with_empty_rosters
    = Raises (OtherError "No columns to parse from file")
  ∧ ∀ r, load_data disk_with_empty_rosters ≠ Returns r.
Proof. repeat split. intros r. discriminate. Qed.

(** C10, amended: [load_data] returns both tables exactly when both files
    are read; when the first read that fails finds no file, it returns both
    results absent with the message of that path; when the first read that
    fails does so with another error, it raises that error.  Whenever it
    returns, one table is never returned without the other. *)
Theorem load_data_both_neither_or_raises (d : Disk) :
  (∀ r s log, load_data d = Returns ((Some r, Some s), log)
              ↔ rosters_file d = Parsed r ∧ scoreboard_file d = Parsed s ∧ log = [])
  ∧ (rosters_file d = Missing
     → load_data d = Returns ((None, None), [load_error rosters_path]))
  ∧ (is_parsed (rosters_file d) → scoreboard_file d = Missing
     → load_data d = Returns ((None, None), [load_error scoreboard_path]))
  ∧ (∀ error, rosters_file d = Unreadable error
              → load_data d = Raises (OtherError error))
  ∧ (∀ error, is_parsed (rosters_file d) → scoreboard_file d = Unreadable error
              → load_data d = Raises (OtherError error))
  ∧ (∀ r s log, load_data d = Returns ((r, s), log)
                → (r = None ∧ s = None) ∨ (is_Some r ∧ is_Some s)).
Proof.
  unfold load_data, read_csv, is_parsed.
  destruct (rosters_file d) as [r0| |e0], (scoreboard_file d) as [s0| |e1];
    simpl; repeat split;
    try (intros; repeat match goal with
                        | H : ∃ _, _ |- _ => destruct H
                        | H : _ ∧ _ |- _ => destruct H
                        end; congruence).
  all: try (intros r s log H; inversion H; subst; eauto; fail).
  all: try (intros H; inversion H; subst; eauto; fail).
Qed.


(** With only the scoreboard file missing, the roster table is not
    returned either, and the message names the scoreboard path. *)
Example load_data_without_scoreboard :
  load_data disk_without_scoreboard
  = Returns ((None, None), [load_error scoreboard_path]).
Proof. reflexivity. Qed.


(** ** The script on the heap *)

Lemma bind_run {A B} (m : Prog A) (k : A → Prog B) h a h' :
  m h = Some (a, h') → (x ← m; k x) h = k a h'.
Proof. intros H. unfold mbind, Prog_bind, bind. now rewrite H. Qed.

Lemma get_score_run h r f :
  h !! r = Some (OScore f) → get_score r h = Some (f, h).
Proof. intros H. unfold get_score. now rewrite H. Qed.

Lemma get_win_run h r m :
  h !! r = Some (OWin m) → get_win r h = Some (m, h).
Proof. intros H. unfold get_win. now rewrite H. Qed.

Lemma alloc_run h o : alloc o h = Some (length h, h ++ [o]).
Proof. reflexivity. Qed.

Lemma lookup_new (h : Heap) o l : (h ++ o :: l) !! length h = Some o.
Proof. now rewrite list_lookup_middle. Qed.

Lemma lookup_old (h : Heap) l r o : h !! r = Some o → (h ++ l) !! r = Some o.
Proof. intros H. now apply lookup_app_l_Some. Qed.

Lemma put_new h o o' l :
  put (length h) o' (h ++ o :: l) = Some (tt, h ++ o' :: l).
Proof.
  unfold put. rewrite decide_True by (rewrite length_app; simpl; lia).
  f_equal. f_equal. rewrite insert_app_r_alt by lia.
  now rewrite Nat.sub_diag.
Qed.

Lemma team_prog_run h filtered f tm :
  h !! filtered = Some (OScore f) →
  team_prog filtered tm h
  = Some (team_win_frame (sf_rows f) tm,
          h ++ [OScore (team_frame (sf_rows f) tm)]).
Proof.
  intros Hf. unfold team_prog.
  rewrite (bind_run _ _ _ _ _ (get_score_run _ _ _ Hf)).
  rewrite (bind_run _ _ _ _ _ (alloc_run _ _)).
  repeat (first
    [ rewrite (bind_run _ _ _ _ _ (get_score_run _ _ _ (lookup_new _ _ _)))
    | rewrite (bind_run _ _ _ _ _ (put_new _ _ _ _))
    | rewrite (bind_run (column (Some _)) _ _ _ _ eq_refl) ]; simpl).
  reflexivity.
Qed.

Lemma win_data_loop filtered f : ∀ sel acc h,
  h !! filtered = Some (OScore f) →
  for_each (fun acc tm => frame ← team_prog filtered tm; ret (acc ++ [frame]))
           sel acc h
  = Some (acc ++ map (team_win_frame (sf_rows f)) sel,
          h ++ map (fun tm => OScore (team_frame (sf_rows f) tm)) sel).
Proof.
  induction sel as [|tm sel IH]; intros acc h Hf; simpl.
  - now rewrite !app_nil_r.
  - rewrite (bind_run _ _ _ _ _
               (bind_run _ _ _ _ _ (team_prog_run _ _ _ tm Hf))).
    unfold ret at 1. rewrite IH by now apply lookup_old.
    now rewrite <- !app_assoc.
Qed.

Lemma win_data_prog_run h filtered f sel :
  h !! filtered = Some (OScore f) →
  win_data_prog filtered sel h
  = Some (win_data (sf_rows f) sel,
          h ++ map (fun tm => OScore (team_frame (sf_rows f) tm)) sel).
Proof. intros Hf. unfold win_data_prog. now rewrite (win_data_loop _ f). Qed.

Lemma win_matrix_loop h matchups mf sel :
  h !! matchups = Some (OScore mf) → ∀ rows cur final,
  for_rows (win_matrix_body (sf_rows mf) sel) rows cur = Some final →
  for_each (fun _ row =>
              mm ← get_score matchups;
              cur ← get_win (length h);
              new ← lift (win_matrix_body (sf_rows mm) sel cur row);
              put (length h) (OWin new))
           rows tt (h ++ [OWin cur])
  = Some (tt, h ++ [OWin final]).
Proof.
  intros Hm.
  induction rows as [|row rows IH]; intros cur final Hrun; simpl in Hrun |- *.
  - inversion Hrun. reflexivity.
  - destruct (win_matrix_body (sf_rows mf) sel cur row) as [next|] eqn:Hbody;
      [|discriminate].
    simpl in Hrun.
    assert (Hstep :
      (mm ← get_score matchups;
       cur0 ← get_win (length h);
       new ← lift (win_matrix_body (sf_rows mm) sel cur0 row);
       put (length h) (OWin new)) (h ++ [OWin cur])
      = Some (tt, h ++ [OWin next])).
    { rewrite (bind_run _ _ _ _ _
                 (get_score_run _ _ _ (lookup_old _ [OWin cur] _ _ Hm))).
      rewrite (bind_run _ _ _ _ _ (get_win_run _ _ _ (lookup_new _ _ _))).
      rewrite Hbody.
      rewrite (bind_run (lift (Some next)) _ _ _ _ eq_refl).
      apply put_new. }
    rewrite (bind_run _ _ _ _ _ Hstep). now apply IH.
Qed.

Lemma win_matrix_prog_run h matchups mf sel :
  h !! matchups = Some (OScore mf) →
  ∃ m, win_matrix (sf_rows mf) sel = Some m
       ∧ win_matrix_prog matchups sel h = Some (m, h ++ [OWin m; OWin m]).
Proof.
  intros Hm. destruct (win_matrix_total (sf_rows mf) sel) as (m & Hwm & _).
  exists m. split; [assumption|]. unfold win_matrix_prog.
  rewrite (bind_run _ _ _ _ _ (alloc_run _ _)).
  rewrite (bind_run _ _ _ _ _
             (get_score_run _ _ _ (lookup_old _ [_] _ _ Hm))).
  rewrite (bind_run _ _ _ _ _ (win_matrix_loop h _ _ sel Hm _ _ _ Hwm)).
  rewrite (bind_run _ _ _ _ _ (get_win_run _ _ _ (lookup_new _ _ _))).
  rewrite (bind_run _ _ _ _ _ (alloc_run _ _)).
  rewrite <- app_assoc. reflexivity.
Qed.

Lemma avg_h2h_total group_mean matchups sel :
  ∃ avg, avg_h2h group_mean matchups sel = Some avg.
Proof. unfold avg_h2h. rewrite h2h_points_rows. simpl. eauto. Qed.

Lemma avg_h2h_prog_run group_mean h matchups mf sel :
  h !! matchups = Some (OScore mf) →
  ∃ avg, avg_h2h group_mean (sf_rows mf) sel = Some avg
         ∧ avg_h2h_prog group_mean matchups sel h = Some (avg, h).
Proof.
  intros Hm. destruct (avg_h2h_total group_mean (sf_rows mf) sel) as (avg & Havg).
  exists avg. split; [assumption|]. unfold avg_h2h_prog.
  rewrite (bind_run _ _ _ _ _ (get_score_run _ _ _ Hm)).
  unfold lift, column. now rewrite Havg.
Qed.

Lemma head_to_head_prog_run group_mean h filtered f sel :
  h !! filtered = Some (OScore f) →
  ∃ m avg, win_matrix (sf_rows f) sel = Some m
           ∧ avg_h2h group_mean (sf_rows f) sel = Some avg
           ∧ head_to_head_prog group_mean filtered sel h
             = Some ((m, avg), h ++ [OScore f; OWin m; OWin m]).
Proof.
  intros Hf.
  pose (h1 := h ++ [OScore f]).
  assert (Hm1 : h1 !! length h = Some (OScore f)) by apply lookup_new.
  destruct (win_matrix_prog_run h1 _ _ sel Hm1) as (m & Hm & Hrun1).
  pose (h2 := h1 ++ [OWin m; OWin m]).
  assert (Hm2 : h2 !! length h = Some (OScore f)) by now apply lookup_old.
  destruct (avg_h2h_prog_run group_mean h2 _ _ sel Hm2) as (avg & Havg & Hrun2).
  exists m, avg. split; [exact Hm|]. split; [exact Havg|].
  unfold head_to_head_prog.
  rewrite (bind_run _ _ _ _ _ (get_score_run _ _ _ Hf)).
  rewrite (bind_run _ _ _ _ _ (alloc_run _ _)).
  rewrite (bind_run _ _ _ _ _ Hrun1), (bind_run _ _ _ _ _ Hrun2).
  unfold ret, h2, h1. rewrite <- !app_assoc. reflexivity.
Qed.

(** The derived tables depend on the rows of the filtered frame only, and
    a run extends the heap without touching the objects it found. *)
Lemma derive_tables_run group_mean h filtered f sel :
  h !! filtered = Some (OScore f) →
  ∃ m avg ext,
    win_matrix (sf_rows f) sel = Some m
    ∧ avg_h2h group_mean (sf_rows f) sel = Some avg
    ∧ derive_tables group_mean filtered sel h
      = Some (mkDerived (win_data (sf_rows f) sel) m avg, h ++ ext).
Proof.
  intros Hf.
  pose (h1 := h ++ map (fun tm => OScore (team_frame (sf_rows f) tm)) sel).
  assert (Hf1 : h1 !! filtered = Some (OScore f)) by now apply lookup_old.
  destruct (head_to_head_prog_run group_mean h1 _ _ sel Hf1) as (m & avg & Hm & Havg & Hrun1).
  exists m, avg.
  exists (map (fun tm => OScore (team_frame (sf_rows f) tm)) sel
          ++ [OScore f; OWin m; OWin m]).
  split; [exact Hm|]. split; [exact Havg|].
  unfold derive_tables.
  rewrite (bind_run _ _ _ _ _ (win_data_prog_run _ _ _ sel Hf)).
  rewrite (bind_run _ _ _ _ _ Hrun1).
  unfold ret, h1. rewrite <- !app_assoc. reflexivity.
Qed.

Lemma filter_prog_run h sb df sel range :
  h !! sb = Some (OScore df) →
  filter_prog sb sel range h
  = Some (length h,
          h ++ [OScore (plain_frame (filtered_scoreboard (sf_rows df) sel range))]).
Proof.
  intros Hdf. unfold filter_prog.
  now rewrite (bind_run _ _ _ _ _ (get_score_run _ _ _ Hdf)).
Qed.

Lemma script_body_run group_mean h sb df sel range :
  h !! sb = Some (OScore df) →
  let filtered := filtered_scoreboard (sf_rows df) sel range in
  ∃ m avg ext,
    win_matrix filtered sel = Some m
    ∧ avg_h2h group_mean filtered sel = Some avg
    ∧ script_body group_mean sb sel range h
      = Some ((filtered, mkDerived (win_data filtered sel) m avg), h ++ ext).
Proof.
  intros Hdf filtered.
  pose (h1 := h ++ [OScore (plain_frame filtered)]).
  assert (Hf : h1 !! length h = Some (OScore (plain_frame filtered)))
    by apply lookup_new.
  destruct (derive_tables_run group_mean h1 _ _ sel Hf) as (m & avg & ext & Hm & Havg & Hrun).
  exists m, avg, ([OScore (plain_frame filtered)] ++ ext).
  split; [exact Hm|]. split; [exact Havg|].
  unfold script_body.
  rewrite (bind_run _ _ _ _ _ (filter_prog_run _ _ _ sel range Hdf)).
  rewrite (bind_run _ _ _ _ _ (get_score_run _ _ _ Hf)).
  rewrite (bind_run _ _ _ _ _ Hrun).
  unfold ret, h1. rewrite <- app_assoc. reflexivity.
Qed.

(** C9: recomputation is deterministic and leaves its inputs alone.  Running
    the script body twice in a row returns the same filtered rows and the
    same derived tables, and recomputing the derived tables twice from one
    filtered frame returns the same tables; each run only adds objects to
    the heap, so every object it found, the source scoreboard and the
    filtered frame included, is unchanged afterwards. *)
Theorem recomputation_same_output_sources_untouched
    (group_mean : list Qc → Qc)
    (h : Heap) (sb : nat) (df : ScoreFrame) (sel : list string) (range : Z * Z) :
  h !! sb = Some (OScore df) →
  (∃ out h1 h2,
      script_body group_mean sb sel range h = Some (out, h1)
      ∧ script_body group_mean sb sel range h1 = Some (out, h2)
      ∧ h `prefix_of` h1 ∧ h1 `prefix_of` h2
      ∧ h1 !! sb = Some (OScore df) ∧ h2 !! sb = Some (OScore df))
  ∧ (∀ (filtered : nat) (f : ScoreFrame) (hf : Heap),
        hf !! filtered = Some (OScore f) →
        ∃ tables hf1 hf2,
          derive_tables group_mean filtered sel hf = Some (tables, hf1)
          ∧ derive_tables group_mean filtered sel hf1 = Some (tables, hf2)
          ∧ hf `prefix_of` hf1 ∧ hf1 `prefix_of` hf2
          ∧ hf1 !! filtered = Some (OScore f)
          ∧ hf2 !! filtered = Some (OScore f)).
Proof.
  intros Hdf. split.
  - destruct (script_body_run group_mean h sb df sel range Hdf)
      as (m & avg & ext & Hm & Havg & Hrun).
    assert (Hdf1 : (h ++ ext) !! sb = Some (OScore df)) by now apply lookup_old.
    destruct (script_body_run group_mean (h ++ ext) sb df sel range Hdf1)
      as (m' & avg' & ext' & Hm' & Havg' & Hrun').
    rewrite Hm in Hm'. rewrite Havg in Havg'.
    inversion Hm'; inversion Havg'; subst m' avg'.
    eexists _, (h ++ ext), ((h ++ ext) ++ ext').
    split; [exact Hrun|]. split; [exact Hrun'|].
    split; [now exists ext|]. split; [now exists ext'|].
    split; [assumption | now apply lookup_old].
  - intros filtered f hf Hf.
    destruct (derive_tables_run group_mean hf filtered f sel Hf)
      as (m & avg & ext & Hm & Havg & Hrun).
    assert (Hf1 : (hf ++ ext) !! filtered = Some (OScore f)) by now apply lookup_old.
    destruct (derive_tables_run group_mean (hf ++ ext) filtered f sel Hf1)
      as (m' & avg' & ext' & Hm' & Havg' & Hrun').
    rewrite Hm in Hm'. rewrite Havg in Havg'.
    inversion Hm'; inversion Havg'; subst m' avg'.
    eexists _, (hf ++ ext), ((hf ++ ext) ++ ext').
    split; [exact Hrun|]. split; [exact Hrun'|].
    split; [now exists ext|]. split; [now exists ext'|].
    split; [assumption | now apply lookup_old].
Qed.

(** ** The theorems at the example *)

Lemma filtered_scoreboard_exact_example :
  filtered_scoreboard example_scoreboard example_selection (1, 2)
  `sublist_of` example_scoreboard.
Proof.
  exact (proj1 (proj2 (filtered_scoreboard_exact
                         example_scoreboard example_selection 1 2))).
Defined.

Lemma win_percentage_running_average_example :
  nth_error example_selection 0 = Some "A"%string
  ∧ ∃ frame, nth_error (win_data example_matchups example_selection) 0 = Some frame
             ∧ length frame = length (team_data example_matchups "A").
Proof.
  split; [reflexivity|].
  destruct (win_percentage_running_average
              example_scoreboard example_selection 1 2 0 "A" eq_refl)
    as (_ & _ & frame & Hframe & Hlen & _).
  exists frame. split; [exact Hframe | exact Hlen].
Defined.

Lemma frame_over_example :
  frame_over example_selection (new_frame example_selection example_selection 0).
Proof.
  unfold frame_over. simpl. repeat split. repeat constructor.
Defined.

Lemma example_participants_distinct :
  ∀ row a b, In row example_matchups →
    week_matchups example_matchups row = [a; b] →
    In (manager_nickname a) example_selection →
    In (manager_nickname b) example_selection →
    manager_nickname a ≠ manager_nickname b.
Proof.
  intros row a b Hin.
  change example_matchups with [row_A1; row_B1; row_C2; row_A2] in *.
  destruct Hin as [<-|[<-|[<-|[<-|[]]]]]; intros Hg _ _;
    inversion Hg; subst; discriminate.
Defined.

Lemma win_matrix_zero_diagonal_example :
  ∃ m, win_matrix example_matchups example_selection = Some m
       ∧ frame_over example_selection m
       ∧ ∀ i j a b v,
           nth_error (index m) i = Some a → nth_error (columns m) j = Some b →
           cell m i j = Some v → (a = b → v = 0) ∧ 0 ≤ v.
Proof.
  exact (win_matrix_zero_diagonal example_matchups example_selection
           example_participants_distinct).
Defined.

Lemma filtered_group_of_two_contributes_example :
  ∃ m, win_matrix example_matchups example_selection = Some m
       ∧ loc m "A" "B"
         = Some (Z.of_nat (length (List.filter
                    (fun row => two_rows_win "A" "B"
                                  (spec_group example_matchups (matchup_key row)))
                    example_matchups))).
Proof.
  destruct (filtered_group_of_two_contributes
              exact_mean example_scoreboard example_selection 1 2)
    as (_ & Hcell & _).
  apply Hcell; simpl; auto.
Defined.

Lemma winner_strictly_greater_tie_second_example :
  ∃ v wmx',
    loc (new_frame example_selection example_selection 0) "A" "B" = Some v
    ∧ win_matrix_body example_matchups example_selection
        (new_frame example_selection example_selection 0) row_A1 = Some wmx'
    ∧ loc wmx' "A" "B" = Some (v + 1).
Proof.
  destruct (proj1 (winner_strictly_greater_tie_second
                     example_matchups example_selection)
              (new_frame example_selection example_selection 0)
              row_A1 row_A1 row_B1 "A"%string "B"%string
              frame_over_example eq_refl)
    as (v & wmx' & Hv & Hbody & _ & Hfirst & _); [simpl; auto ..|].
  exists v, wmx'. split; [exact Hv|]. split; [exact Hbody|].
  apply Hfirst. reflexivity.
Defined.

Lemma example_pair_A_B :
  ∃ a b, In (a, b) (spec_resolved_pairs example_matchups example_selection)
         ∧ ((manager_nickname a = "A"%string ∧ manager_nickname b = "B"%string)
            ∨ (manager_nickname b = "A"%string ∧ manager_nickname a = "B"%string)).
Proof.
  exists row_A1, row_B1. split.
  - left. reflexivity.
  - left. split; reflexivity.
Defined.


(** The rematch: the loop collects each of A's two scores against B twice,
    and two records for each resolved pair hold each once. *)
Example rematch_points_collected :
  map Qcanon.this (emitted_points_against rematch_matchups rematch_selection "A" "B")
  = [60 # 1; 60 # 1; 607 # 10; 607 # 10]%Q
  ∧ map Qcanon.this (spec_points_against rematch_matchups rematch_selection "A" "B")
    = [60 # 1; 607 # 10]%Q
  ∧ (length <$> h2h_points rematch_matchups rematch_selection) = Some 8%nat
  ∧ length (spec_directed_records rematch_matchups rematch_selection) = 4%nat.
Proof. repeat split. Qed.


Lemma load_data_both_neither_or_raises_example :
  load_data disk_without_scoreboard
  = Returns ((None, None), [load_error scoreboard_path]).
Proof.
  destruct (load_data_both_neither_or_raises disk_without_scoreboard)
    as (_ & _ & H & _).
  apply H; [exists []; reflexivity | reflexivity].
Defined.


Lemma recomputation_example :
  example_heap !! 0%nat = Some (OScore (plain_frame example_scoreboard))
  ∧ ∃ out h1 h2,
      script_body exact_mean 0 example_selection (1, 2) example_heap = Some (out, h1)
      ∧ script_body exact_mean 0 example_selection (1, 2) h1 = Some (out, h2)
      ∧ example_heap `prefix_of` h1 ∧ h1 `prefix_of` h2
      ∧ h1 !! 0%nat = Some (OScore (plain_frame example_scoreboard))
      ∧ h2 !! 0%nat = Some (OScore (plain_frame example_scoreboard)).
Proof.
  split; [reflexivity|].
  exact (proj1 (recomputation_same_output_sources_untouched
                  exact_mean example_heap 0 (plain_frame example_scoreboard)
                  example_selection (1, 2) eq_refl)).
Defined.

(** ** The sidebar *)

Lemma unique_In x l : In x (unique l) ↔ In x l.
Proof.
  induction l as [|y l IH]; simpl; [tauto|].
  rewrite filter_In, IH, negb_true_iff, String.eqb_neq.
  destruct (String.eqb_spec y x) as [->|Hne]; [tauto|].
  split; [tauto|]. intros [H|H]; [tauto|]. right. split; congruence.
Qed.

Lemma NoDup_list_filter {A} (p : A → bool) (l : list A) :
  NoDup l → NoDup (List.filter p l).
Proof. rewrite !NoDup_ListNoDup. apply List.NoDup_filter. Qed.

Lemma unique_NoDup l : NoDup (unique l).
Proof.
  induction l as [|y l IH]; simpl; constructor.
  - rewrite list_elem_of_In, filter_In, negb_true_iff, String.eqb_neq. tauto.
  - now apply NoDup_list_filter.
Qed.

Lemma insert_string_perm x l : insert_string x l ≡ₚ x :: l.
Proof.
  induction l as [|y l IH]; simpl; [reflexivity|].
  destruct (String.leb x y); [reflexivity|].
  rewrite IH. apply Permutation_swap.
Qed.

Lemma sorted_strings_perm l : sorted_strings l ≡ₚ l.
Proof.
  induction l as [|x l IH]; simpl; [reflexivity|].
  rewrite insert_string_perm. now constructor.
Qed.

Lemma insert_string_sorted x l :
  Sorted string_le l → Sorted string_le (insert_string x l).
Proof.
  induction 1 as [|y l Hs IH Hhd]; simpl.
  - repeat constructor.
  - destruct (String.leb x y) eqn:Hxy.
    + constructor; [now constructor | now constructor].
    + assert (Hyx : string_le y x).
      { destruct (String.leb_total x y) as [H|H]; [congruence | exact H]. }
      constructor; [assumption|].
      destruct l as [|z l]; simpl in *; [now constructor|].
      inversion Hhd; subst.
      destruct (String.leb x z); now constructor.
Qed.

Lemma sorted_strings_sorted l : Sorted string_le (sorted_strings l).
Proof.
  induction l as [|x l IH]; simpl; [constructor|].
  now apply insert_string_sorted.
Qed.

Lemma teams_In df x :
  In x (teams df) ↔ ∃ r, In r df ∧ manager_nickname r = x.
Proof.
  unfold teams.
  split.
  - intros H. apply (Permutation_in _ (sorted_strings_perm _)) in H.
    apply unique_In, in_map_iff in H. destruct H as (r & <- & Hr). eauto.
  - intros (r & Hr & <-).
    apply (Permutation_in _ (Permutation_sym (sorted_strings_perm _))).
    apply unique_In, in_map. assumption.
Qed.

Lemma teams_NoDup df : NoDup (teams df).
Proof.
  unfold teams. rewrite sorted_strings_perm. apply unique_NoDup.
Qed.

(** X1: the options of the team multiselect are exactly the nicknames that
    occur in the scoreboard, each once, in ascending order. *)
Theorem teams_distinct_ascending (scoreboard_df : Table) :
  NoDup (teams scoreboard_df)
  ∧ Sorted string_le (teams scoreboard_df)
  ∧ ∀ x, In x (teams scoreboard_df)
         ↔ ∃ r, In r scoreboard_df ∧ manager_nickname r = x.
Proof.
  split; [apply teams_NoDup|]. split; [apply sorted_strings_sorted|].
  apply teams_In.
Qed.

Lemma default_teams_firstn ts : default_teams ts = firstn 5 ts.
Proof.
  unfold default_teams. destruct (Nat.ltb_spec 5 (length ts)); [reflexivity|].
  symmetry. now apply firstn_all2.
Qed.

Lemma firstn_NoDup {A} n (l : list A) : NoDup l → NoDup (firstn n l).
Proof.
  intros H. rewrite <- (firstn_skipn n l) in H.
  now apply NoDup_app in H as (H & _ & _).
Qed.

Lemma firstn_In {A} n (l : list A) x : In x (firstn n l) → In x l.
Proof.
  intros H. rewrite <- (firstn_skipn n l). apply in_or_app. now left.
Qed.

(** X2: the default selection consists of the first five options, or of all
    of them when there are at most five; it has no duplicates and every
    team in it occurs in the scoreboard. *)
Theorem default_teams_first_five (scoreboard_df : Table) :
  let selection := default_teams (teams scoreboard_df) in
  selection = firstn 5 (teams scoreboard_df)
  ∧ length selection = Nat.min 5 (length (teams scoreboard_df))
  ∧ NoDup selection
  ∧ (∀ x, In x selection → ∃ r, In r scoreboard_df ∧ manager_nickname r = x)
  ∧ ((length (teams scoreboard_df) ≤ 5)%nat → selection = teams scoreboard_df).
Proof.
  intros selection. subst selection. rewrite default_teams_firstn.
  split; [reflexivity|]. split; [apply length_firstn|].
  split; [apply firstn_NoDup, teams_NoDup|]. split.
  - intros x Hx. apply teams_In. eapply firstn_In; eassumption.
  - intros Hle. now apply firstn_all2.
Qed.

Lemma fold_left_max_ge l : ∀ x, x ≤ fold_left Z.max l x
  ∧ (∀ y, In y l → y ≤ fold_left Z.max l x)
  ∧ (fold_left Z.max l x = x ∨ In (fold_left Z.max l x) l).
Proof.
  induction l as [|a l IH]; intros x; simpl.
  - split; [lia|]. split; [tauto | now left].
  - destruct (IH (Z.max x a)) as (H1 & H2 & H3).
    split; [lia|]. split.
    + intros y [<-|Hy]; [lia | now apply H2].
    + destruct H3 as [H3|H3]; [|now right; right].
      rewrite H3. destruct (Z.max_spec x a) as [[_ ->]|[_ ->]]; auto.
Qed.

Lemma max_week_spec (scoreboard_df : Table) :
  (max_week scoreboard_df = None ↔ scoreboard_df = [])
  ∧ ∀ m, max_week scoreboard_df = Some m →
         (∀ r, In r scoreboard_df → week r ≤ m)
         ∧ ∃ r, In r scoreboard_df ∧ week r = m.
Proof.
  unfold max_week, series_max_Z.
  destruct scoreboard_df as [|r0 df]; simpl.
  - split; [tauto|]. discriminate.
  - split; [split; discriminate|].
    intros m Hm. inversion Hm; subst m; clear Hm.
    destruct (fold_left_max_ge (map week df) (week r0)) as (H1 & H2 & H3).
    split.
    + intros r [<-|Hr]; [assumption|]. apply H2. now apply in_map.
    + destruct H3 as [H3|H3].
      * exists r0. split; [now left | now rewrite H3].
      * apply in_map_iff in H3. destruct H3 as (r & Hr & Hin).
        exists r. split; [now right | assumption].
Qed.

(** X3: the upper end of the week slider is the largest week of the
    scoreboard: it bounds every row's week and is the week of some row.  On
    an empty scoreboard the conversion of the maximum raises. *)
Theorem max_week_largest (scoreboard_df : Table) :
  (max_week scoreboard_df = None ↔ scoreboard_df = [])
  ∧ ∀ m, max_week scoreboard_df = Some m →
         (∀ r, In r scoreboard_df → week r ≤ m)
         ∧ ∃ r, In r scoreboard_df ∧ week r = m.
Proof. apply max_week_spec. Qed.

Lemma filter_all {A} (p : A → bool) (l : list A) :
  (∀ x, In x l → p x = true) → List.filter p l = l.
Proof.
  induction l as [|x l IH]; intros H; simpl; [reflexivity|].
  rewrite (H x) by now left. f_equal. apply IH. intros y Hy. apply H. now right.
Qed.

(** X4: when the largest week exceeds 1, there are at most five teams and
    no week is below 1, the filter with the default selection of teams and
    the week range from 1 to the largest week keeps the whole scoreboard. *)
Theorem default_filter_keeps_all (scoreboard_df : Table) (m : Z) :
  (length (teams scoreboard_df) ≤ 5)%nat →
  (∀ r, In r scoreboard_df → 1 ≤ week r) →
  max_week scoreboard_df = Some m →
  1 < m →
  filtered_scoreboard scoreboard_df (default_teams (teams scoreboard_df)) (1, m)
  = scoreboard_df.
Proof.
  intros Hfive Hweeks Hmax _.
  rewrite filtered_scoreboard_filter. apply filter_all.
  intros r Hr. apply selects_true. simpl.
  destruct (max_week_spec scoreboard_df) as (_ & Hm).
  destruct (Hm m Hmax) as (Hle & _).
  split; [|split; [now apply Hweeks | now apply Hle]].
  rewrite default_teams_firstn, firstn_all2 by assumption.
  apply teams_In. eauto.
Qed.

(** ** More on the head-to-head loops *)

Lemma doubled_records_nil sel (groups : list Table) :
  flat_map (fun g => group_records sel g ++ group_records sel g) groups = []
  ↔ omap (spec_resolve sel) groups = [].
Proof.
  induction groups as [|g groups IH]; [tauto|].
  cbn [flat_map omap list_omap]. unfold group_records at 1 2.
  destruct (spec_resolve sel g) as [p|]; simpl.
  - split; discriminate.
  - exact IH.
Qed.

(** X5: neither head-to-head loop raises, whatever the table and the
    selection: the win matrix is a full square frame over the selection,
    and the averages are computed or, exactly when no matchup resolves,
    left out. *)
Theorem head_to_head_never_raises
    (group_mean : list Qc → Qc) (matchups : Table) (sel : list string) :
  (∃ m, win_matrix matchups sel = Some m ∧ frame_over sel m)
  ∧ (∃ avg, avg_h2h group_mean matchups sel = Some avg
            ∧ (avg = None ↔ spec_resolved_pairs matchups sel = [])).
Proof.
  split; [apply win_matrix_total|].
  destruct (h2h_points_twice_spec matchups sel) as (recs & Hrecs & Hperm).
  unfold avg_h2h. rewrite Hrecs. simpl. eexists. split; [reflexivity|].
  unfold spec_resolved_pairs. rewrite <- doubled_records_nil.
  destruct recs as [|r recs].
  - split; [intros _ | reflexivity].
    now apply Permutation_nil in Hperm.
  - split; [discriminate|]. intros Hnil. rewrite Hnil in Hperm.
    symmetry in Hperm. apply Permutation_nil in Hperm. discriminate.
Qed.

(** ** Single cells *)

Lemma win_mark_two sel a b g : win_mark sel a b g ≠ [] → length g = 2%nat.
Proof.
  unfold win_mark. destruct (spec_resolve sel g) as [[x y]|] eqn:E; [|congruence].
  apply spec_resolve_Some in E. now destruct E as (-> & _).
Qed.

Lemma win_marks_count sel a b (groups : list Table) :
  length (flat_map (fun g => win_mark sel a b g ++ win_mark sel a b g) groups)
  = (2 * length (List.filter (won_by a b) (omap (spec_resolve sel) groups)))%nat.
Proof.
  induction groups as [|g groups IH]; [reflexivity|].
  change (flat_map ?f (g :: groups)) with (f g ++ flat_map f groups).
  rewrite !length_app, IH. unfold win_mark. cbn [omap list_omap].
  destruct (spec_resolve sel g) as [p|]; cbn [List.filter length];
    [destruct (won_by a b p); cbn [length]; lia | lia].
Qed.

(** X7: whatever the selection, the cell of the win matrix for [a] over
    [b] holds twice the number of resolved matchups that [a] won against
    [b]. *)
Theorem win_matrix_cell_twice_wins
    (matchups : Table) (sel : list string) (a b : string) :
  In a sel → In b sel →
  ∃ m, win_matrix matchups sel = Some m
       ∧ loc m a b
         = Some (2 * Z.of_nat (length (List.filter (won_by a b)
                                         (spec_resolved_pairs matchups sel)))).
Proof.
  intros Ha Hb. destruct (win_matrix_total matchups sel) as (m & Hm & _).
  exists m. split; [assumption|]. unfold win_matrix in Hm.
  destruct (loc_Some sel _ a b (new_frame_over sel 0) Ha Hb) as (v0 & Hv0).
  assert (v0 = 0).
  { unfold loc in Hv0. simpl in Hv0.
    destruct (position a sel); [|discriminate].
    destruct (position b sel); [|discriminate].
    simpl in Hv0. now apply new_frame_cell in Hv0. }
  subst v0.
  rewrite (win_matrix_loop_cell matchups sel a b Ha Hb _ _ _ _
             (new_frame_over sel 0) Hv0 Hm).
  rewrite (Permutation_length
             (rows_visit_groups_twice (win_mark sel a b) matchups
                (win_mark_two sel a b))).
  rewrite win_marks_count. unfold spec_resolved_pairs. f_equal. lia.
Qed.

(** ** The filter and what is computed from its result *)

(** X11: filtering is idempotent: the filter applied to its own result with
    the same selection returns that result. *)
Theorem filtered_scoreboard_idempotent
    (df : Table) (sel : list string) (range : Z * Z) :
  filtered_scoreboard (filtered_scoreboard df sel range) sel range
  = filtered_scoreboard df sel range.
Proof.
  rewrite !filtered_scoreboard_filter. apply filter_all.
  intros r Hr. now apply filter_In in Hr.
Qed.

(** X12: with no team selected, or with a week range whose lower end is
    above its upper end, the filter returns no row. *)
Theorem filtered_scoreboard_empty
    (df : Table) (sel : list string) (lo hi : Z) :
  sel = [] ∨ hi < lo → filtered_scoreboard df sel (lo, hi) = [].
Proof.
  intros H. rewrite filtered_scoreboard_filter. apply filter_none.
  intros r _. unfold selects. simpl.
  destruct H as [->|Hlt]; [reflexivity|].
  destruct (Z.leb_spec lo (week r)), (Z.leb_spec (week r) hi);
    rewrite ?andb_false_r; try reflexivity. lia.
Qed.

(** X8: in the script the loops read the filtered scoreboard, so the test
    that both participants are selected never fails: a group resolves
    exactly when it has two rows. *)
Theorem filtered_group_resolves_iff_two_rows
    (df : Table) (sel : list string) (range : Z * Z) (row : ScoreRow) :
  let matchups := filtered_scoreboard df sel range in
  resolves sel (week_matchups matchups row)
  ↔ length (week_matchups matchups row) = 2%nat.
Proof.
  intros matchups. unfold resolves. split; [tauto|].
  intros Hlen. split; [assumption|]. intros r Hr.
  rewrite week_matchups_filter in Hr. apply filter_In in Hr as [Hr _].
  subst matchups. rewrite filtered_scoreboard_filter in Hr.
  apply filter_In in Hr as [_ Hr]. now apply selects_true in Hr.
Qed.

(** X9: the group of a row in the filtered scoreboard is its group in the
    source restricted to the selected entities when the row's week lies in
    the range, and is empty otherwise; so a matchup with an unselected
    participant is seen as a shorter group. *)
Theorem filtered_group_restricts_source
    (df : Table) (sel : list string) (lo hi : Z) (row : ScoreRow) :
  week_matchups (filtered_scoreboard df sel (lo, hi)) row
  = if (lo <=? week row) && (week row <=? hi)
    then List.filter (fun r => in_list (manager_nickname r) sel)
                     (week_matchups df row)
    else [].
Proof.
  rewrite !week_matchups_filter, filtered_scoreboard_filter.
  rewrite filter_filter_and.
  destruct ((lo <=? week row) && (week row <=? hi)) eqn:Hrange.
  - rewrite filter_filter_and. apply filter_ext. intros r.
    unfold selects, in_list. simpl.
    destruct (Z.eqb_spec (week r) (week row)) as [->|]; simpl.
    + rewrite Hrange. simpl.
      destruct (existsb _ sel), (matchup_id r =? matchup_id row); reflexivity.
    + now rewrite andb_false_r.
  - apply filter_none. intros r _. unfold selects. simpl.
    destruct (Z.eqb_spec (week r) (week row)) as [->|]; simpl.
    + rewrite Hrange. now rewrite andb_false_r.
    + now rewrite andb_false_r.
Qed.

(** ** The rows of the cumulative chart *)

Lemma filter_partition_perm {A} (p : A → bool) (l : list A) :
  l ≡ₚ List.filter p l ++ List.filter (fun x => negb (p x)) l.
Proof.
  induction l as [|x l IH]; simpl; [reflexivity|].
  destruct (p x); simpl.
  - now constructor.
  - rewrite IH at 1. apply Permutation_middle.
Qed.

Lemma teams_partition_rows (sel : list string) : NoDup sel → ∀ l : Table,
  (∀ r, In r l → In (manager_nickname r) sel) →
  concat (map (fun tm => List.filter (fun r => String.eqb (manager_nickname r) tm) l)
              sel)
  ≡ₚ l.
Proof.
  induction 1 as [|tm sel Htm Hnd IH]; intros l Hl; simpl.
  - destruct l as [|r l]; [reflexivity|]. destruct (Hl r); now left.
  - etransitivity;
      [|symmetry; apply (filter_partition_perm
                           (fun r => String.eqb (manager_nickname r) tm))].
    apply Permutation_app_head.
    rewrite <- (IH (List.filter (fun r => negb (String.eqb (manager_nickname r) tm)) l)).
    + apply Permutation_refl'. f_equal. apply map_ext_in. intros tm' Htm'.
      rewrite filter_filter_and. apply filter_ext. intros r.
      destruct (String.eqb_spec (manager_nickname r) tm') as [->|]; simpl.
      * destruct (String.eqb_spec tm' tm) as [->|]; [|reflexivity].
        exfalso. apply Htm. now apply list_elem_of_In.
      * now rewrite andb_false_r.
    + intros r Hr. apply filter_In in Hr as [Hr Hne].
      apply negb_true_iff, String.eqb_neq in Hne.
      destruct (Hl r Hr) as [Heq|Hin]; [congruence | assumption].
Qed.

Lemma map_fst_combine {A B} (l : list A) (l' : list B) :
  length l = length l' → map fst (combine l l') = l.
Proof.
  revert l'. induction l as [|x l IH]; intros [|y l'] H; simpl in *;
    try discriminate; [reflexivity|]. f_equal. apply IH. lia.
Qed.

Lemma team_win_frame_rows filtered tm :
  map (fun r => (wp_week r, wp_manager_nickname r)) (team_win_frame filtered tm)
  = map (fun r => (week r, manager_nickname r)) (team_data filtered tm).
Proof.
  unfold team_win_frame. rewrite map_map. simpl.
  rewrite <- (map_map fst (fun r => (week r, manager_nickname r))).
  rewrite map_fst_combine; [reflexivity|].
  rewrite win_percentage_col_length.
  - unfold cumsum, wins_col. now rewrite cumsum_from_length, length_map.
  - unfold cumsum, wins_col, games_played_col.
    now rewrite cumsum_from_length, !length_map, length_seq.
Qed.

Lemma win_data_rows (filtered : Table) (sel : list string) :
  map (fun r => (wp_week r, wp_manager_nickname r)) (concat (win_data filtered sel))
  ≡ₚ map (fun r => (week r, manager_nickname r))
         (concat (map (fun tm => List.filter
                                   (fun r => String.eqb (manager_nickname r) tm)
                                   filtered)
                      sel)).
Proof.
  unfold win_data. rewrite !concat_map, !map_map.
  induction sel as [|tm sel IH]; simpl; [reflexivity|].
  apply Permutation_app; [|exact IH].
  rewrite team_win_frame_rows, team_data_filter.
  apply Permutation_map, sort_values_week_perm.
Qed.

(** X13: the cumulative chart has one row for every filtered record: with a
    non-empty selection without duplicates, the week and team columns of
    the concatenated frame are a rearrangement of those of the filtered
    scoreboard; with an empty selection no frame is built. *)
Theorem win_df_one_row_per_record
    (df : Table) (sel : list string) (range : Z * Z) :
  NoDup sel →
  let filtered := filtered_scoreboard df sel range in
  (sel = [] → win_df filtered sel = None)
  ∧ (sel ≠ [] →
     ∃ rows, win_df filtered sel = Some rows
             ∧ map (fun r => (wp_week r, wp_manager_nickname r)) rows
               ≡ₚ map (fun r => (week r, manager_nickname r)) filtered
             ∧ length rows = length filtered).
Proof.
  intros Hnd filtered. split; [now intros ->|]. intros Hne.
  assert (Hrows :
    map (fun r => (wp_week r, wp_manager_nickname r))
        (concat (win_data filtered sel))
    ≡ₚ map (fun r => (week r, manager_nickname r)) filtered).
  { etransitivity;
      [apply win_data_rows
      |apply Permutation_map, (teams_partition_rows sel Hnd filtered)].
    intros r Hr. subst filtered. rewrite filtered_scoreboard_filter in Hr.
    apply filter_In in Hr as [_ Hr]. now apply selects_true in Hr. }
  exists (concat (win_data filtered sel)). split; [|split].
  - unfold win_df. destruct sel; [congruence | reflexivity].
  - exact Hrows.
  - apply Permutation_length in Hrows. now rewrite !length_map in Hrows.
Qed.

(** ** The order of group keys *)

Lemma string_compare_refl s : String.compare s s = Eq.
Proof.
  pose proof (String.compare_antisym s s) as H.
  destruct (String.compare s s); try reflexivity; discriminate.
Qed.

Lemma string_compare_lt_trans a b c :
  String.compare a b = Lt → String.compare b c = Lt → String.compare a c = Lt.
Proof.
  intros H1 H2.
  apply OrderedTypeEx.String_as_OT.cmp_lt.
  apply (OrderedTypeEx.String_as_OT.lt_trans a b c);
    now apply OrderedTypeEx.String_as_OT.cmp_lt.
Qed.

Lemma key_compare_antisym a b : key_compare a b = CompOpp (key_compare b a).
Proof.
  unfold key_compare.
  rewrite (String.compare_antisym (fst a) (fst b)).
  rewrite (String.compare_antisym (snd a) (snd b)).
  destruct (String.compare (fst b) (fst a)); reflexivity.
Qed.

Lemma key_lt_irrefl a : ¬ key_lt a a.
Proof.
  unfold key_lt, key_compare. rewrite !string_compare_refl. discriminate.
Qed.

Lemma key_lt_trans a b c : key_lt a b → key_lt b c → key_lt a c.
Proof.
  unfold key_lt, key_compare.
  destruct (String.compare (fst a) (fst b)) eqn:Eab; try discriminate;
    destruct (String.compare (fst b) (fst c)) eqn:Ebc; try discriminate;
    intros H1 H2.
  - apply String.compare_eq_iff in Eab, Ebc. rewrite Eab, Ebc.
    rewrite string_compare_refl. eapply string_compare_lt_trans; eassumption.
  - apply String.compare_eq_iff in Eab. now rewrite Eab, Ebc.
  - apply String.compare_eq_iff in Ebc. now rewrite <- Ebc, Eab.
  - now rewrite (string_compare_lt_trans _ _ _ Eab Ebc).
Qed.

Lemma insert_key_sorted k l :
  Sorted key_lt l → Sorted key_lt (insert_key k l).
Proof.
  induction 1 as [|x l Hs IH Hhd]; simpl.
  - repeat constructor.
  - destruct (key_compare k x) eqn:Hkx.
    + now constructor.
    + constructor; [now constructor | now constructor].
    + assert (Hxk : key_lt x k).
      { unfold key_lt. rewrite key_compare_antisym, Hkx. reflexivity. }
      constructor; [assumption|].
      destruct l as [|y l]; simpl in *; [now constructor|].
      inversion Hhd; subst.
      destruct (key_compare k y); now constructor.
Qed.

Lemma sorted_keys_sorted l : Sorted key_lt (fold_right insert_key [] l).
Proof.
  induction l as [|k l IH]; simpl; [constructor|].
  now apply insert_key_sorted.
Qed.

Lemma sorted_keys_In l k : In k (fold_right insert_key [] l) ↔ In k l.
Proof.
  induction l as [|y l IH]; simpl; [tauto|].
  rewrite insert_key_In, IH. intuition.
Qed.

Lemma key_lt_sorted_NoDup l : Sorted key_lt l → NoDup l.
Proof.
  intros Hs. apply Sorted_StronglySorted in Hs.
  2:{ intros a b c. apply key_lt_trans. }
  induction Hs as [|x l Hs IH Hall]; constructor; [|assumption].
  intros Hin. apply list_elem_of_In in Hin.
  rewrite List.Forall_forall in Hall.
  exact (key_lt_irrefl x (Hall x Hin)).
Qed.

Lemma groupby_mean_keys group_mean recs :
  map h2h_key (groupby_mean group_mean recs) = group_keys recs.
Proof.
  unfold groupby_mean. rewrite map_map. unfold h2h_key. simpl.
  rewrite <- (map_id (group_keys recs)) at 2.
  apply map_ext. now intros [t o].
Qed.

Lemma directed_key_resolved matchups sel tm opp :
  In (tm, opp) (map h2h_key (spec_directed_records matchups sel))
  ↔ ∃ a b, In (a, b) (spec_resolved_pairs matchups sel)
           ∧ ((manager_nickname a = tm ∧ manager_nickname b = opp)
              ∨ (manager_nickname b = tm ∧ manager_nickname a = opp)).
Proof.
  unfold spec_directed_records. rewrite in_map_iff. split.
  - intros (r & Hkey & Hr). apply in_flat_map in Hr as ([a b] & Hp & Hr).
    exists a, b. split; [assumption|].
    destruct Hr as [<-|[<-|[]]]; inversion Hkey; subst; auto.
  - intros (a & b & Hp & Hnames).
    destruct Hnames as [[<- <-]|[<- <-]].
    + exists (mkH2H (manager_nickname a) (manager_nickname b) (team_points a)).
      split; [reflexivity|]. apply in_flat_map. exists (a, b).
      split; [assumption | now left].
    + exists (mkH2H (manager_nickname b) (manager_nickname a) (team_points b)).
      split; [reflexivity|]. apply in_flat_map. exists (a, b).
      split; [assumption | right; now left].
Qed.

(** X10: the table of averages has its rows in strictly ascending order of
    (team, opponent), so every ordered pair has at most one row; it has a
    row for a pair exactly when the pair has a resolved matchup, and then
    also a row for the reversed pair. *)
Theorem avg_h2h_rows_ascending_complete
    (group_mean : list Qc → Qc)
    (matchups : Table) (sel : list string) (table : list H2HRecord) :
  avg_h2h group_mean matchups sel = Some (Some table) →
  Sorted key_lt (map h2h_key table)
  ∧ NoDup (map h2h_key table)
  ∧ (∀ tm opp,
       In (tm, opp) (map h2h_key table)
       ↔ ∃ a b, In (a, b) (spec_resolved_pairs matchups sel)
                ∧ ((manager_nickname a = tm ∧ manager_nickname b = opp)
                   ∨ (manager_nickname b = tm ∧ manager_nickname a = opp)))
  ∧ (∀ tm opp, In (tm, opp) (map h2h_key table)
               → In (opp, tm) (map h2h_key table)).
Proof.
  intros Havg.
  destruct (h2h_points_twice_spec matchups sel) as (recs & Hrecs & Hperm).
  unfold avg_h2h in Havg. rewrite Hrecs in Havg. simpl in Havg.
  assert (Htable : table = groupby_mean group_mean recs).
  { destruct recs; inversion Havg; reflexivity. }
  subst table. rewrite groupby_mean_keys. unfold group_keys.
  assert (Hsorted : Sorted key_lt (fold_right insert_key [] (map h2h_key recs)))
    by apply sorted_keys_sorted.
  assert (Hkeys : ∀ tm opp,
    In (tm, opp) (fold_right insert_key [] (map h2h_key recs))
    ↔ ∃ a b, In (a, b) (spec_resolved_pairs matchups sel)
             ∧ ((manager_nickname a = tm ∧ manager_nickname b = opp)
                ∨ (manager_nickname b = tm ∧ manager_nickname a = opp))).
  { intros tm opp. rewrite sorted_keys_In, <- directed_key_resolved.
    rewrite spec_directed_records_groups, !in_map_iff.
    split; intros (r & Hkey & Hr); exists r; (split; [assumption|]).
    - apply (Permutation_in _ Hperm) in Hr.
      apply in_flat_map in Hr as (g & Hg & Hr). apply in_flat_map.
      exists g. split; [assumption|]. apply in_app_or in Hr. tauto.
    - apply (Permutation_in _ (Permutation_sym Hperm)).
      apply in_flat_map in Hr as (g & Hg & Hr). apply in_flat_map.
      exists g. split; [assumption|]. apply in_or_app. now left. }
  split; [assumption|]. split; [now apply key_lt_sorted_NoDup|].
  split; [assumption|].
  intros tm opp Hin. apply Hkeys. apply Hkeys in Hin.
  destruct Hin as (a & b & Hp & Hnames). exists a, b. tauto.
Qed.

(** ** Roster aggregates *)



Lemma key_eqb_refl k : key_eqb k k = true.
Proof. now apply key_eqb_eq. Qed.

Lemma indicator_sum (q : string * string → bool) (k0 : string * string) ks :
  NoDup ks → In k0 ks →
  sum_list (map (fun k => if q k && key_eqb k0 k then 1 else 0)%nat ks)
  = (if q k0 then 1 else 0)%nat.
Proof.
  induction 1 as [|k ks Hk Hnd IH]; simpl; [tauto|].
  intros [->|Hin].
  - rewrite key_eqb_refl, andb_true_r.
    assert (Hrest : sum_list (map (fun k => if q k && key_eqb k0 k then 1 else 0)%nat ks)
                    = 0%nat).
    { clear IH Hnd. induction ks as [|k ks IH]; simpl; [reflexivity|].
      apply not_elem_of_cons in Hk as [Hne Hk].
      destruct (key_eqb k0 k) eqn:E; [apply key_eqb_eq in E; congruence|].
      rewrite andb_false_r. simpl. now apply IH. }
    rewrite Hrest. lia.
  - destruct (key_eqb k0 k) eqn:E.
    + apply key_eqb_eq in E. subst k. exfalso. apply Hk.
      now apply list_elem_of_In.
    + rewrite andb_false_r. simpl. now apply IH.
Qed.

Lemma sum_list_add (f g : string * string → nat) ks :
  sum_list (map (fun k => f k + g k)%nat ks)
  = (sum_list (map f ks) + sum_list (map g ks))%nat.
Proof. induction ks as [|k ks IH]; simpl; [reflexivity | rewrite IH; lia]. Qed.

(** The counts of the keys selected by [q] add up to the number of rows
    whose key [q] selects. *)
Lemma key_counts_sum (q : string * string → bool) ks (l : RosterTable) :
  NoDup ks → (∀ r, In r l → In (roster_key r) ks) →
  sum_list (map (fun k => if q k then rows_with_key k l else 0)%nat ks)
  = length (List.filter (fun r => q (roster_key r)) l).
Proof.
  intros Hnd. induction l as [|r l IH]; intros Hl.
  - simpl. clear Hnd Hl. induction ks as [|k ks IHk]; simpl; [reflexivity|].
    rewrite IHk. now destruct (q k).
  - rewrite (map_ext _ (fun k => (if q k && key_eqb (roster_key r) k then 1 else 0)
                                 + (if q k then rows_with_key k l else 0))%nat).
    2:{ intros k. unfold rows_with_key. simpl.
        destruct (q k), (key_eqb (roster_key r) k); simpl; lia. }
    rewrite sum_list_add, indicator_sum by (assumption || (apply Hl; now left)).
    rewrite IH by (intros r' Hr'; apply Hl; now right).
    simpl. destruct (q (roster_key r)); simpl; lia.
Qed.

Lemma position_counts_keys filtered :
  map pc_key (position_counts filtered)
  = fold_right insert_key [] (map roster_key filtered).
Proof.
  unfold position_counts. rewrite map_map. unfold pc_key. simpl.
  rewrite <- (map_id (fold_right _ _ _)) at 2.
  apply map_ext. now intros [m p].
Qed.

Lemma position_counts_counts (q : string * string → bool) filtered :
  sum_list (map (fun p => if q (pc_key p) then pc_count p else 0)%nat
                (position_counts filtered))
  = length (List.filter (fun r => q (roster_key r)) filtered).
Proof.
  rewrite <- (key_counts_sum q (fold_right insert_key [] (map roster_key filtered))).
  - unfold position_counts. rewrite map_map. apply f_equal, map_ext.
    now intros [m p].
  - apply key_lt_sorted_NoDup, sorted_keys_sorted.
  - intros r Hr. apply sorted_keys_In. now apply in_map.
Qed.

(** X15: position usage has one row per (manager, position) that occurs in
    the filtered rosters, in strictly ascending key order; each count is the
    number of roster rows of that manager in that position, at least 1; and
    the counts add up to the number of filtered roster rows. *)
Theorem position_counts_exact (filtered : RosterTable) :
  Sorted key_lt (map pc_key (position_counts filtered))
  ∧ NoDup (map pc_key (position_counts filtered))
  ∧ (∀ p, In p (position_counts filtered) →
          pc_count p = rows_with_key (pc_key p) filtered ∧ (1 ≤ pc_count p)%nat)
  ∧ (∀ r, In r filtered → In (roster_key r) (map pc_key (position_counts filtered)))
  ∧ sum_list (map pc_count (position_counts filtered)) = length filtered.
Proof.
  rewrite position_counts_keys.
  split; [apply sorted_keys_sorted|].
  split; [apply key_lt_sorted_NoDup, sorted_keys_sorted|].
  split; [|split].
  - intros p Hp. unfold position_counts in Hp.
    apply in_map_iff in Hp as (k & <- & Hk). unfold pc_key. simpl.
    destruct k as [m pos]. simpl. split; [reflexivity|].
    apply sorted_keys_In, in_map_iff in Hk as (r & Hkey & Hr).
    assert (Hin : In r (List.filter (fun r0 => key_eqb (roster_key r0) (m, pos)) filtered)).
    { apply filter_In. split; [assumption|]. now apply key_eqb_eq. }
    destruct (List.filter _ filtered); [destruct Hin | simpl; lia].
  - intros r Hr. apply sorted_keys_In. now apply in_map.
  - pose proof (position_counts_counts (fun _ => true) filtered) as H.
    simpl in H. etransitivity; [exact H|]. f_equal. apply filter_all. reflexivity.
Qed.

Lemma insert_count_perm e l : insert_count e l ≡ₚ e :: l.
Proof.
  induction l as [|x l IH]; simpl; [reflexivity|].
  destruct (snd x <=? snd e)%nat; [reflexivity|].
  rewrite IH. apply Permutation_swap.
Qed.

Lemma sort_counts_perm l : sort_counts l ≡ₚ l.
Proof.
  induction l as [|x l IH]; simpl; [reflexivity|].
  rewrite insert_count_perm. now constructor.
Qed.

Lemma insert_count_sorted e l :
  Sorted count_ge l → Sorted count_ge (insert_count e l).
Proof.
  induction 1 as [|x l Hs IH Hhd]; simpl.
  - repeat constructor.
  - destruct (Nat.leb_spec (snd x) (snd e)) as [Hle|Hgt].
    + constructor; [now constructor | now constructor].
    + constructor; [assumption|].
      destruct l as [|y l]; simpl in *.
      * constructor. unfold count_ge. lia.
      * inversion Hhd; subst.
        destruct (Nat.leb_spec (snd y) (snd e)); constructor;
          unfold count_ge in *; lia.
Qed.

Lemma sort_counts_sorted l : StronglySorted count_ge (sort_counts l).
Proof.
  apply Sorted_StronglySorted.
  - intros a b c. unfold count_ge. lia.
  - induction l as [|x l IH]; simpl; [constructor|].
    now apply insert_count_sorted.
Qed.

Lemma value_counts_perm l :
  value_counts l ≡ₚ map (fun v => (v, count_value v l)) (unique l).
Proof. apply sort_counts_perm. Qed.

Lemma value_counts_In l v c :
  In (v, c) (value_counts l) ↔ In v l ∧ c = count_value v l.
Proof.
  split.
  - intros H. apply (Permutation_in _ (value_counts_perm l)) in H.
    apply in_map_iff in H as (v' & Heq & Hv'). inversion Heq; subst.
    split; [now apply unique_In | reflexivity].
  - intros [Hv ->].
    apply (Permutation_in _ (Permutation_sym (value_counts_perm l))).
    apply in_map_iff. exists v. split; [reflexivity | now apply unique_In].
Qed.

Lemma value_counts_values l : map fst (value_counts l) ≡ₚ unique l.
Proof.
  rewrite value_counts_perm, map_map. simpl. now rewrite map_id.
Qed.

Lemma count_value_pos v l : In v l → (1 ≤ count_value v l)%nat.
Proof.
  intros H. unfold count_value.
  assert (Hin : In v (List.filter (String.eqb v) l)).
  { apply filter_In. split; [assumption | apply String.eqb_refl]. }
  destruct (List.filter _ l); [destruct Hin | simpl; lia].
Qed.

Lemma unique_counts_sum l :
  sum_list (map (fun v => count_value v l) (unique l)) = length l.
Proof.
  assert (Hgen : ∀ vs, NoDup vs → ∀ l, (∀ x, In x l → In x vs) →
            sum_list (map (fun v => count_value v l) vs) = length l).
  { clear l. induction 1 as [|v vs Hv Hnd IH]; intros l Hl; simpl.
    - destruct l as [|x l]; [reflexivity | destruct (Hl x); now left].
    - assert (Hext : ∀ u, In u vs →
               count_value u l
               = count_value u (List.filter (fun x => negb (String.eqb v x)) l)).
      { intros u Hu. unfold count_value. rewrite filter_filter_and.
        f_equal. apply filter_ext. intros x.
        destruct (String.eqb_spec u x) as [->|]; [|now rewrite andb_false_r].
        destruct (String.eqb_spec v x) as [->|]; [|reflexivity].
        exfalso. apply Hv. now apply list_elem_of_In. }
      rewrite (map_ext_in _ _ vs Hext), IH.
      + rewrite (Permutation_length (filter_partition_perm (String.eqb v) l)).
        rewrite length_app. reflexivity.
      + intros x Hx. apply filter_In in Hx as [Hx Hne].
        apply negb_true_iff, String.eqb_neq in Hne.
        destruct (Hl x Hx) as [Heq|Hin]; [congruence | assumption]. }
  apply Hgen; [apply unique_NoDup|]. intros x Hx. now apply unique_In.
Qed.

Lemma value_counts_sum l : sum_list (map snd (value_counts l)) = length l.
Proof.
  rewrite (Permutation_map snd (value_counts_perm l)) at 1.
  rewrite map_map. simpl. apply unique_counts_sum.
Qed.

(** X16: the overall position distribution lists every position that occurs
    in the filtered rosters once, with its number of rows, in order of
    non-increasing count; the counts add up to the number of rows, and the
    count of a position is the sum of its counts in the position usage of
    the managers. *)
Theorem overall_positions_exact (filtered : RosterTable) :
  StronglySorted count_ge (overall_positions filtered)
  ∧ NoDup (map fst (overall_positions filtered))
  ∧ (∀ pos c, In (pos, c) (overall_positions filtered)
              ↔ In pos (map roster_position filtered)
                ∧ c = count_value pos (map roster_position filtered))
  ∧ sum_list (map snd (overall_positions filtered)) = length filtered
  ∧ (∀ pos, count_value pos (map roster_position filtered)
            = sum_list (map (fun p => if String.eqb pos (pc_roster_position p)
                                      then pc_count p else 0%nat)
                            (position_counts filtered))).
Proof.
  unfold overall_positions.
  split; [apply sort_counts_sorted|].
  split; [rewrite value_counts_values; apply unique_NoDup|].
  split; [intros pos c; apply value_counts_In|].
  split; [now rewrite value_counts_sum, length_map|].
  intros pos.
  etransitivity;
    [|symmetry;
      exact (position_counts_counts (fun k => String.eqb pos (snd k)) filtered)].
  unfold count_value. unfold roster_key. simpl.
  induction filtered as [|r l IH]; simpl; [reflexivity|].
  destruct (String.eqb pos (roster_position r)); simpl; now rewrite IH.
Qed.

(** ** The most frequent values *)

Lemma StronglySorted_app_cross {A} (R : A → A → Prop) (l1 l2 : list A) :
  StronglySorted R (l1 ++ l2) → ∀ x y, In x l1 → In y l2 → R x y.
Proof.
  induction l1 as [|a l1 IH]; simpl; intros Hs x y Hx Hy; [tauto|].
  inversion Hs as [|? ? Hs' Hall]; subst.
  destruct Hx as [->|Hx].
  - rewrite List.Forall_forall in Hall. apply Hall, in_or_app. now right.
  - now apply IH.
Qed.

Lemma StronglySorted_firstn {A} (R : A → A → Prop) n (l : list A) :
  StronglySorted R l → StronglySorted R (firstn n l).
Proof.
  intros Hs. revert n. induction Hs as [|a l Hs IH Hall]; intros [|n]; simpl;
    try constructor.
  - apply IH.
  - rewrite List.Forall_forall in *. intros x Hx. apply Hall.
    eapply firstn_In; eassumption.
Qed.

Lemma sum_list_firstn_le n (l : list nat) :
  (sum_list (firstn n l) ≤ sum_list l)%nat.
Proof.
  revert n. induction l as [|x l IH]; intros [|n]; simpl; try lia.
  specialize (IH n). lia.
Qed.

(** The first [n] rows of [value_counts]. *)
Lemma top_counts_exact (n : nat) (l : list string) :
  let top := firstn n (value_counts l) in
  length top = Nat.min n (length (unique l))
  ∧ StronglySorted count_ge top
  ∧ NoDup (map fst top)
  ∧ (∀ v c, In (v, c) top → In v l ∧ c = count_value v l ∧ (1 ≤ c)%nat)
  ∧ (∀ v c v', In (v, c) top → In v' l → ¬ In v' (map fst top) →
               (count_value v' l ≤ c)%nat)
  ∧ (sum_list (map snd top) ≤ length l)%nat.
Proof.
  intros top. subst top.
  split; [|split; [|split; [|split; [|split]]]].
  - rewrite length_firstn.
    now rewrite (Permutation_length (value_counts_perm l)), length_map.
  - apply StronglySorted_firstn, sort_counts_sorted.
  - rewrite <- firstn_map. apply firstn_NoDup.
    rewrite value_counts_values. apply unique_NoDup.
  - intros v c Hin. apply firstn_In, value_counts_In in Hin as [Hv ->].
    split; [assumption|]. split; [reflexivity | now apply count_value_pos].
  - intros v c v' Hin Hv' Hout.
    assert (Hall : In (v', count_value v' l) (value_counts l))
      by now apply value_counts_In.
    rewrite <- (firstn_skipn n (value_counts l)) in Hall.
    apply in_app_or in Hall as [Hall|Hall].
    + exfalso. apply Hout. apply in_map_iff. now exists (v', count_value v' l).
    + pose proof (sort_counts_sorted
                    (map (fun v => (v, count_value v l)) (unique l))) as Hs.
      fold (value_counts l) in Hs.
      rewrite <- (firstn_skipn n (value_counts l)) in Hs.
      exact (StronglySorted_app_cross _ _ _ Hs _ _ Hin Hall).
  - rewrite <- firstn_map, <- (value_counts_sum l). apply sum_list_firstn_le.
Qed.

(** X17: the player chart lists at most 20 players, or all of them when
    fewer occur, each once, with the number of filtered roster rows that
    name the player, in order of non-increasing count; no player left out
    is rostered more often than a listed one. *)
Theorem player_usage_top_20 (filtered : RosterTable) :
  let names := map full_name filtered in
  length (player_usage filtered) = Nat.min 20 (length (unique names))
  ∧ StronglySorted count_ge (player_usage filtered)
  ∧ NoDup (map fst (player_usage filtered))
  ∧ (∀ v c, In (v, c) (player_usage filtered) →
            In v names ∧ c = count_value v names ∧ (1 ≤ c)%nat)
  ∧ (∀ v c v', In (v, c) (player_usage filtered) → In v' names →
               ¬ In v' (map fst (player_usage filtered)) →
               (count_value v' names ≤ c)%nat)
  ∧ (sum_list (map snd (player_usage filtered)) ≤ length filtered)%nat.
Proof.
  intros names. unfold player_usage. fold names.
  destruct (top_counts_exact 20 names) as (H1 & H2 & H3 & H4 & H5 & H6).
  repeat (split; [assumption|]).
  subst names. now rewrite length_map in H6.
Qed.

Lemma dropna_In (l : list (option string)) v : In v (dropna l) ↔ In (Some v) l.
Proof.
  unfold dropna. induction l as [|[x|] l IH]; cbn [omap list_omap id]; simpl.
  - tauto.
  - rewrite IH. split; (intros [H|H]; [left; congruence | now right]).
  - rewrite IH. split; [now right | intros [H|H]; [discriminate | assumption]].
Qed.

Lemma dropna_length (l : list (option string)) :
  (length (dropna l) ≤ length l)%nat.
Proof.
  unfold dropna. induction l as [|[x|] l IH]; cbn [omap list_omap id]; simpl; lia.
Qed.

(** X18: the team chart is built only when the roster frame has a
    [team_abbr] column.  It then lists at most 15 abbreviations, each once
    and each taken from a filtered roster row, in order of non-increasing
    count, none left out being more frequent than a listed one; rows without
    an abbreviation are not counted. *)
Theorem team_usage_top_15 (columns : list string) (filtered : RosterTable) :
  (in_list "team_abbr" columns = false → team_usage columns filtered = None)
  ∧ (in_list "team_abbr" columns = true →
     ∃ top, team_usage columns filtered = Some top
       ∧ (length top ≤ 15)%nat
       ∧ StronglySorted count_ge top
       ∧ NoDup (map fst top)
       ∧ (∀ v c, In (v, c) top →
                 (∃ r, In r filtered ∧ team_abbr r = Some v)
                 ∧ c = count_value v (dropna (map team_abbr filtered)))
       ∧ (∀ v c v' r, In (v, c) top → In r filtered → team_abbr r = Some v' →
                      ¬ In v' (map fst top) →
                      (count_value v' (dropna (map team_abbr filtered)) ≤ c)%nat)
       ∧ (sum_list (map snd top)
          ≤ length (List.filter (fun r => bool_decide (team_abbr r ≠ None)) filtered))%nat).
Proof.
  unfold team_usage. split; [now intros ->|]. intros ->.
  eexists. split; [reflexivity|].
  destruct (top_counts_exact 15 (dropna (map team_abbr filtered)))
    as (Hlen & Hsorted & Hnd & Hin & Hout & Hsum).
  split; [rewrite Hlen; lia|]. split; [assumption|]. split; [assumption|].
  split; [|split].
  - intros v c Hvc. destruct (Hin v c Hvc) as (Hv & Hc & _).
    split; [|assumption].
    apply dropna_In, in_map_iff in Hv as (r & Hr & Hrin). eauto.
  - intros v c v' r Hvc Hr Habbr Hnot. apply (Hout v c v' Hvc); [|assumption].
    apply dropna_In. rewrite <- Habbr. now apply in_map.
  - etransitivity; [exact Hsum|]. apply Nat.eq_le_incl.
    unfold dropna. clear. induction filtered as [|r l IH]; [reflexivity|].
    cbn [map omap list_omap List.filter].
    destruct (team_abbr r) as [v|]; simpl; now rewrite IH.
Qed.

(** ** The season summary *)

Lemma points_gt_false a b : points_gt a b = false ↔ (a ≤ b)%Qc.
Proof.
  rewrite Qcle_ngt, <- points_gt_true. destruct (points_gt a b); split;
    congruence.
Qed.

Lemma Qc_max_spec a b :
  (a ≤ Qc_max a b)%Qc ∧ (b ≤ Qc_max a b)%Qc
  ∧ (Qc_max a b = a ∨ Qc_max a b = b).
Proof.
  unfold Qc_max. destruct (points_gt b a) eqn:E.
  - apply points_gt_true in E. split; [now apply Qclt_le_weak|].
    split; [apply Qcle_refl | now right].
  - apply points_gt_false in E. split; [apply Qcle_refl|].
    split; [assumption | now left].
Qed.

Lemma fold_left_Qc_max l : ∀ x,
  (x ≤ fold_left Qc_max l x)%Qc
  ∧ (∀ y, In y l → (y ≤ fold_left Qc_max l x)%Qc)
  ∧ (fold_left Qc_max l x = x ∨ In (fold_left Qc_max l x) l).
Proof.
  induction l as [|a l IH]; intros x; simpl.
  - split; [apply Qcle_refl|]. split; [tauto | now left].
  - destruct (IH (Qc_max x a)) as (H1 & H2 & H3).
    destruct (Qc_max_spec x a) as (Hx & Ha & Hor).
    split; [eapply Qcle_trans; eassumption|]. split.
    + intros y [<-|Hy]; [eapply Qcle_trans; eassumption | now apply H2].
    + destruct H3 as [H3|H3]; [|now right; right].
      rewrite H3. destruct Hor as [->| ->]; auto.
Qed.

Lemma series_max_spec l m :
  series_max l = Some m → In m l ∧ ∀ y, In y l → (y ≤ m)%Qc.
Proof.
  destruct l as [|x l]; simpl; [discriminate|].
  intros H. inversion H; subst m; clear H.
  destruct (fold_left_Qc_max l x) as (H1 & H2 & H3). split.
  - destruct H3 as [->|H3]; [now left | now right].
  - intros y [<-|Hy]; [assumption | now apply H2].
Qed.

Lemma Qc_eq_bool_true x y : Qc_eq_bool x y = true ↔ x = y.
Proof.
  split; [apply Qc_eq_bool_correct|]. intros ->.
  unfold Qc_eq_bool. destruct (Qcanon.Qc_eq_dec y y); [reflexivity | contradiction].
Qed.

Lemma top_scorer_filter filtered m :
  top_scorer filtered (Some m)
  = nth_error (map manager_nickname
                 (List.filter (fun r => Qc_eq_bool (team_points r) m) filtered)) 0.
Proof.
  unfold top_scorer. rewrite map_map. simpl. now rewrite boolean_index_map.
Qed.

Lemma filter_first {A} (p : A → bool) (l : list A) r rest :
  List.filter p l = r :: rest →
  ∃ before after, l = before ++ r :: after ∧ p r = true
                  ∧ ∀ x, In x before → p x = false.
Proof.
  induction l as [|x l IH]; simpl; [discriminate|].
  destruct (p x) eqn:Hx.
  - intros H. inversion H; subst. exists [], l. split; [reflexivity|].
    split; [assumption | intros ? []].
  - intros H. destruct (IH H) as (before & after & -> & Hr & Hb).
    exists (x :: before), after. split; [reflexivity|].
    split; [assumption|]. intros y [<-|Hy]; [assumption | now apply Hb].
Qed.

(** X19: the summary of lines 273-288 raises exactly when the filtered
    scoreboard is empty: the highest score is then undefined, no row
    matches it, and line 279 takes the first of no rows. *)
Theorem season_summary_raises_iff_empty
    (series_mean : list Qc → Qc) (filtered : Table) :
  season_summary series_mean filtered = None ↔ filtered = [].
Proof.
  unfold season_summary. destruct filtered as [|r l]; [tauto|].
  split; [|discriminate]. intros Hnone. exfalso.
  destruct (series_max (map team_points (r :: l))) as [m|] eqn:Hmax;
    [|discriminate].
  apply series_max_spec in Hmax as [Hin _].
  apply in_map_iff in Hin as (r' & Hr' & Hin).
  rewrite top_scorer_filter in Hnone.
  assert (Hf : In r' (List.filter (fun r0 => Qc_eq_bool (team_points r0) m) (r :: l))).
  { apply filter_In. split; [assumption | now apply Qc_eq_bool_true]. }
  destruct (List.filter _ (r :: l)); [destruct Hf | discriminate].
Qed.

Lemma season_summary_nonempty series_mean filtered s :
  season_summary series_mean filtered = Some s → filtered ≠ [].
Proof. intros Hs ->. discriminate. Qed.

(** X20: on a non-empty filtered scoreboard the summary reports the highest
    score, which no row exceeds, the nickname of the first row that reaches
    it, and as the average pandas' mean of the points column. *)
Theorem season_summary_highest_score
    (series_mean : list Qc → Qc) (filtered : Table) (s : Summary) :
  season_summary series_mean filtered = Some s →
  ∃ m, s_max_points s = Some m
    ∧ s_avg_points s = Some (series_mean (map team_points filtered))
    ∧ (∀ r, In r filtered → (team_points r ≤ m)%Qc)
    ∧ ∃ before r after,
        filtered = before ++ r :: after
        ∧ team_points r = m ∧ manager_nickname r = s_top_scorer s
        ∧ ∀ r', In r' before → (team_points r' < m)%Qc.
Proof.
  unfold season_summary. intros Hs.
  destruct (series_max (map team_points filtered)) as [m|] eqn:Hmax.
  2:{ unfold top_scorer in Hs. simpl in Hs.
      rewrite map_map, boolean_index_map in Hs.
      rewrite filter_none in Hs by reflexivity. discriminate. }
  rewrite top_scorer_filter in Hs.
  destruct (List.filter _ filtered) as [|r rest] eqn:Hf; [discriminate|].
  simpl in Hs. inversion Hs; subst s; clear Hs. simpl.
  apply series_max_spec in Hmax as [Hin Hle].
  assert (Hall : ∀ r0, In r0 filtered → (team_points r0 ≤ m)%Qc).
  { intros r0 Hr0. apply Hle. now apply in_map. }
  assert (Hne : map team_points filtered ≠ []).
  { destruct filtered; [destruct Hin | discriminate]. }
  exists m.
  split; [reflexivity|]. split.
  { unfold points_mean. destruct (map team_points filtered); congruence. }
  split; [assumption|].
  destruct (filter_first _ _ _ _ Hf) as (before & after & Heq & Hr & Hb).
  exists before, r, after. split; [assumption|].
  split; [now apply Qc_eq_bool_true|]. split; [reflexivity|].
  intros r' Hr'. specialize (Hb r' Hr').
  destruct (Qcle_lt_or_eq _ _ (Hall r' ltac:(rewrite Heq; apply in_or_app; now left)))
    as [Hlt|Heq']; [assumption|].
  apply Qc_eq_bool_true in Heq'. congruence.
Qed.

Lemma NoDup_range_length (l : list Z) lo hi :
  NoDup l → (∀ x, In x l → lo ≤ x ≤ hi) →
  (Z.of_nat (length l) ≤ Z.max 0 (hi - lo + 1)).
Proof.
  intros Hnd Hall.
  pose (n := Z.to_nat (hi - lo + 1)).
  assert (Hincl : incl l (map (fun i => lo + Z.of_nat i) (seq 0 n))).
  { intros x Hx. specialize (Hall x Hx). apply in_map_iff.
    exists (Z.to_nat (x - lo)). split; [lia|]. apply in_seq. unfold n. lia. }
  apply NoDup_ListNoDup in Hnd.
  pose proof (NoDup_incl_length Hnd Hincl) as Hlen.
  rewrite length_map, length_seq in Hlen. unfold n in Hlen. lia.
Qed.

Lemma In_remove_dups (l : list Z) x : In x (remove_dups l) ↔ In x l.
Proof. now rewrite <- !list_elem_of_In, elem_of_remove_dups. Qed.

(** X21: the number of weeks played reported for a filtered scoreboard is at
    least 1, at most the number of filtered rows and at most the number of
    weeks in the selected range. *)
Theorem season_summary_weeks_played
    (series_mean : list Qc → Qc)
    (df : Table) (sel : list string) (lo hi : Z) (s : Summary) :
  season_summary series_mean (filtered_scoreboard df sel (lo, hi)) = Some s →
  (1 ≤ s_weeks_played s)%nat
  ∧ (s_weeks_played s ≤ length (filtered_scoreboard df sel (lo, hi)))%nat
  ∧ Z.of_nat (s_weeks_played s) ≤ hi - lo + 1.
Proof.
  intros Hs.
  assert (Hne : filtered_scoreboard df sel (lo, hi) ≠ []).
  { exact (season_summary_nonempty _ _ _ Hs). }
  unfold season_summary in Hs.
  destruct (top_scorer _ _) as [scorer|]; [|discriminate].
  simpl in Hs. inversion Hs; subst s; clear Hs. simpl.
  set (t := filtered_scoreboard df sel (lo, hi)) in *.
  assert (Hweeks : ∀ x, In x (remove_dups (map week t)) → lo ≤ x ≤ hi).
  { intros x Hx. apply (proj1 (In_remove_dups _ _)) in Hx.
    apply in_map_iff in Hx as (r & <- & Hr). subst t.
    rewrite filtered_scoreboard_filter in Hr. apply filter_In in Hr as [_ Hr].
    apply selects_true in Hr. simpl in Hr. tauto. }
  split; [|split].
  - destruct t as [|r t']; [congruence|].
    assert (Hin : In (week r) (remove_dups (map week (r :: t')))).
    { apply In_remove_dups. now left. }
    destruct (remove_dups _); [destruct Hin | simpl; lia].
  - rewrite <- (length_map week t).
    apply NoDup_incl_length.
    + apply NoDup_ListNoDup, NoDup_remove_dups.
    + intros x Hx. now apply (proj1 (In_remove_dups _ _)) in Hx.
  - pose proof (NoDup_range_length _ lo hi (NoDup_remove_dups (map week t)) Hweeks).
    destruct t as [|r t']; [congruence|].
    assert (lo ≤ week r ≤ hi).
    { apply Hweeks, In_remove_dups. now left. }
    lia.
Qed.

(** ** Total games *)

Lemma filtered_rows_selected df sel range r :
  In r (filtered_scoreboard df sel range) → In (manager_nickname r) sel.
Proof.
  rewrite filtered_scoreboard_filter. intros Hr.
  apply filter_In in Hr as [_ Hr]. now apply selects_true in Hr.
Qed.

Lemma flat_map_singletons {A B} (f : A → list B) (b : B) (l : list A) :
  (∀ x, In x l → f x = [b]) → length (flat_map f l) = length l.
Proof.
  induction l as [|x l IH]; intros H; simpl; [reflexivity|].
  rewrite length_app, (H x) by now left. simpl. f_equal.
  apply IH. intros y Hy. apply H. now right.
Qed.

(** X22: when every row of the filtered scoreboard has exactly one partner
    row in its (week, matchup) group, the total of games reported by the
    summary is the number of resolved matchups, and the filtered scoreboard
    has two rows per game. *)
Theorem total_games_counts_matchups
    (series_mean : list Qc → Qc)
    (df : Table) (sel : list string) (range : Z * Z) (s : Summary) :
  let t := filtered_scoreboard df sel range in
  (∀ row, In row t → length (week_matchups t row) = 2%nat) →
  season_summary series_mean t = Some s →
  s_total_games s = length (spec_resolved_pairs t sel)
  ∧ length t = (2 * s_total_games s)%nat.
Proof.
  intros t Hpaired Hs.
  assert (Hlen : length t = (2 * length (spec_resolved_pairs t sel))%nat).
  { rewrite <- (flat_map_singletons
                  (fun row => group_mark sel (week_matchups t row)) tt t).
    - rewrite (Permutation_length
                 (rows_visit_groups_twice (group_mark sel) t (group_mark_two sel))).
      apply marks_count_pairs.
    - intros row Hrow. unfold group_mark.
      destruct (spec_resolve sel (week_matchups t row)) as [p|] eqn:E;
        [reflexivity|].
      apply spec_resolve_None in E. exfalso. apply E. split.
      + now apply Hpaired.
      + intros r Hr. rewrite week_matchups_filter in Hr.
        apply filter_In in Hr as [Hr _].
        eapply filtered_rows_selected. exact Hr. }
  unfold season_summary in Hs.
  destruct (top_scorer _ _) as [scorer|]; [|discriminate].
  cbn [mbind option_bind] in Hs. inversion Hs; subst s; clear Hs.
  cbn [s_total_games]. fold t. rewrite Hlen.
  set (n := length (spec_resolved_pairs t sel)).
  change (fst (Nat.divmod (2 * n) 1 0 1)) with ((2 * n) / 2)%nat.
  rewrite (Nat.mul_comm 2), Nat.div_mul by lia.
  split; [reflexivity | lia].
Qed.

(** ** The page *)

(** X23: the dashboard is shown exactly when both files are read, with the
    tables read from them; when the first read that fails finds no file,
    the page shows the load error for that path followed by the two fixed
    messages; when the first read that fails does so with another error,
    the script ends with that error and shows neither. *)
Theorem page_dashboard_iff_both_files (d : Disk) :
  (∀ r s, page d = Returns (Dashboard r s)
          ↔ rosters_file d = Parsed r ∧ scoreboard_file d = Parsed s)
  ∧ (rosters_file d = Missing →
     page d = Returns (NoData [Error (load_error rosters_path);
                               Error no_data_message; Info run_scripts_message]))
  ∧ (is_parsed (rosters_file d) → scoreboard_file d = Missing →
     page d = Returns (NoData [Error (load_error scoreboard_path);
                               Error no_data_message; Info run_scripts_message]))
  ∧ (∀ error, rosters_file d = Unreadable error →
              page d = Raises (OtherError error))
  ∧ (∀ error, is_parsed (rosters_file d) → scoreboard_file d = Unreadable error →
              page d = Raises (OtherError error)).
Proof.
  unfold page, load_data, read_csv, is_parsed.
  destruct (rosters_file d) as [r0| |e0], (scoreboard_file d) as [s0| |e1];
    simpl; repeat split;
    try (intros; repeat match goal with
                        | H : ∃ _, _ |- _ => destruct H
                        | H : _ ∧ _ |- _ => destruct H
                        end; congruence).
  all: try (intros H; inversion H; subst; eauto; fail).
Qed.

(** ** The further properties at the example *)

Lemma default_filter_keeps_all_example :
  filtered_scoreboard example_scoreboard
    (default_teams (teams example_scoreboard)) (1, 2)
  = example_scoreboard.
Proof.
  apply (default_filter_keeps_all example_scoreboard 2).
  - apply Nat.leb_le. vm_compute. reflexivity.
  - intros r Hr. simpl in Hr.
    destruct Hr as [<-|[<-|[<-|[<-|[]]]]]; simpl; lia.
  - reflexivity.
  - lia.
Defined.

Lemma example_selection_NoDup : NoDup example_selection.
Proof.
  apply (bool_decide_unpack _). vm_compute. exact I.
Defined.

Lemma win_matrix_sum_twice_resolved_example :
  ∃ m, win_matrix example_matchups example_selection = Some m
       ∧ cells_sum m
         = 2 * Z.of_nat (length (spec_resolved_pairs example_matchups
                                   example_selection)).
Proof.
  exact (win_matrix_sum_twice_resolved example_matchups example_selection
           example_selection_NoDup).
Defined.

Lemma win_matrix_cell_twice_wins_example :
  ∃ m, win_matrix example_matchups example_selection = Some m
       ∧ loc m "A" "B"
         = Some (2 * Z.of_nat (length (List.filter (won_by "A" "B")
                                         (spec_resolved_pairs example_matchups
                                            example_selection)))).
Proof.
  apply (win_matrix_cell_twice_wins example_matchups example_selection "A" "B").
  - simpl. tauto.
  - simpl. tauto.
Defined.

Lemma example_averages_computed :
  avg_h2h exact_mean example_matchups example_selection
  = Some (Some example_averages).
Proof. reflexivity. Defined.

Lemma avg_h2h_rows_ascending_complete_example :
  Sorted key_lt (map h2h_key example_averages)
  ∧ NoDup (map h2h_key example_averages).
Proof.
  destruct (avg_h2h_rows_ascending_complete exact_mean example_matchups
              example_selection
              example_averages example_averages_computed) as (H1 & H2 & _).
  split; [exact H1 | exact H2].
Defined.

Lemma filtered_scoreboard_empty_example :
  filtered_scoreboard example_scoreboard [] (1, 2) = [].
Proof.
  apply (filtered_scoreboard_empty example_scoreboard [] 1 2).
  left. reflexivity.
Defined.

Lemma win_df_one_row_per_record_example :
  ∃ rows, win_df example_matchups example_selection = Some rows
          ∧ length rows = length example_matchups.
Proof.
  destruct (win_df_one_row_per_record example_scoreboard example_selection (1, 2)
              example_selection_NoDup) as (_ & H).
  destruct H as (rows & Hrows & _ & Hlen); [discriminate|].
  exists rows. split; [exact Hrows | exact Hlen].
Defined.

Lemma example_summary_computed :
  season_summary exact_mean example_matchups = Some example_summary.
Proof. reflexivity. Defined.

Lemma season_summary_highest_score_example :
  ∃ m, s_max_points example_summary = Some m
       ∧ s_avg_points example_summary
         = Some (exact_mean (map team_points example_matchups))
       ∧ ∀ r, In r example_matchups → (team_points r ≤ m)%Qc.
Proof.
  destruct (season_summary_highest_score exact_mean example_matchups
              example_summary example_summary_computed)
    as (m & Hm & Ha & Hle & _).
  exists m. split; [exact Hm|]. split; [exact Ha | exact Hle].
Defined.

Lemma season_summary_weeks_played_example :
  (1 ≤ s_weeks_played example_summary)%nat
  ∧ (s_weeks_played example_summary ≤ length example_matchups)%nat
  ∧ Z.of_nat (s_weeks_played example_summary) ≤ 2 - 1 + 1.
Proof.
  exact (season_summary_weeks_played exact_mean example_scoreboard
           example_selection 1 2
           example_summary example_summary_computed).
Defined.

Lemma example_matchups_paired :
  ∀ row, In row example_matchups →
         length (week_matchups example_matchups row) = 2%nat.
Proof.
  intros row Hin.
  change example_matchups with [row_A1; row_B1; row_C2; row_A2] in *.
  destruct Hin as [<-|[<-|[<-|[<-|[]]]]]; reflexivity.
Defined.

Lemma total_games_counts_matchups_example :
  s_total_games example_summary
  = length (spec_resolved_pairs example_matchups example_selection)
  ∧ length example_matchups = (2 * s_total_games example_summary)%nat.
Proof.
  exact (total_games_counts_matchups exact_mean example_scoreboard
           example_selection (1, 2)
           example_summary example_matchups_paired example_summary_computed).
Defined.

Lemma default_teams_first_five_example :
  default_teams (teams example_scoreboard) = teams example_scoreboard.
Proof.
  apply (proj2 (proj2 (proj2 (proj2 (default_teams_first_five example_scoreboard))))).
  apply Nat.leb_le. vm_compute. reflexivity.
Defined.

Lemma max_week_largest_example :
  (∀ r, In r example_scoreboard → week r ≤ 2)
  ∧ ∃ r, In r example_scoreboard ∧ week r = 2.
Proof.
  apply (proj2 (max_week_largest example_scoreboard) 2). reflexivity.
Defined.


Lemma position_counts_exact_example :
  sum_list (map pc_count (position_counts example_rosters))
  = length example_rosters.
Proof.
  exact (proj2 (proj2 (proj2 (proj2 (position_counts_exact example_rosters))))).
Defined.

Lemma overall_positions_exact_example :
  sum_list (map snd (overall_positions example_rosters)) = length example_rosters.
Proof.
  exact (proj1 (proj2 (proj2 (proj2 (overall_positions_exact example_rosters))))).
Defined.

Lemma player_usage_top_20_example :
  length (player_usage example_rosters)
  = Nat.min 20 (length (unique (map full_name example_rosters))).
Proof.
  exact (proj1 (player_usage_top_20 example_rosters)).
Defined.

Lemma team_usage_top_15_example :
  ∃ top, team_usage example_roster_columns example_rosters = Some top
         ∧ (length top ≤ 15)%nat.
Proof.
  destruct (proj2 (team_usage_top_15 example_roster_columns example_rosters)
              eq_refl) as (top & Htop & Hlen & _).
  exists top. split; [exact Htop | exact Hlen].
Defined.

Lemma page_dashboard_iff_both_files_example :
  page disk_without_rosters
  = Returns (NoData [Error (load_error rosters_path); Error no_data_message;
                     Info run_scripts_message]).
Proof.
  apply (proj1 (proj2 (page_dashboard_iff_both_files disk_without_rosters))).
  reflexivity.
Defined.
